(** * xll_math: the linear-algebra catalogue of src/src/linalg.cpp

    A shallow embedding of the Excel add-in functions [xll_matrix_*] and of
    the layout adapters [fp_to_eigen], [eigen_to_fp], [vector_to_fp].

    - [double] is IEEE binary64, modelled by Rocq's primitive floats.
    - [_FP12] is Excel's array struct: [rows], [columns] and a row-major buffer.
    - [MatrixXd] is Eigen's dense matrix with its default column-major storage.
    - A returned [_FP12*] is an [option _FP12]; [None] is [nullptr].
    - The factorisations that live inside Eigen (LU, QR, LLT, SVD, the
      eigen-solver and the blocked matrix product) are parameters of the
      catalogue; what the add-in code does around them is modelled in full.
    - Dimensions ([INT32], [Eigen::Index]) are natural numbers: every
      dimension the add-in handles is non-negative.  The [int] obtained from a
      [double] argument is a [Z], because its sign is tested, and so are the
      [int] variables of [xll_matrix_svd_full], which are added and
      multiplied: [int] arithmetic wraps around at 32 bits.
    - A kernel call either returns or throws ([except]); every add-in function
      is a [try ... catch (...)] block whose handler returns the sentinel.
      Eigen itself raises no exception on numerical trouble, so the properties
      of the individual operations are stated for kernels that return
      ([nothrow]).  Memory exhaustion outside the kernels is not modelled. *)

From Stdlib Require Import ZArith Lia Floats Uint63.
From stdpp Require Import base numbers option list.

Set Default Proof Using "Type".

(** ** Scalars *)

Abbreviation double := float.

#[global] Instance double_inhabited : Inhabited double := populate 0%float.

(** [std::numeric_limits<double>::quiet_NaN()] and [::epsilon()]. *)
Definition quiet_NaN : double := nan.
Definition epsilon : double := 0x1p-52%float.

Definition INT_MIN : Z := -2147483648.
Definition INT_MAX : Z := 2147483647.

(** The integral part of a finite double (rounding toward zero). *)
Definition trunc (x : double) : option Z :=
  match Prim2SF x with
  | S754_zero _ => Some 0%Z
  | S754_finite s m e =>
      let a := Z.shiftl (Z.pos m) e in
      Some (if s then (- a)%Z else a)
  | S754_infinity _ | S754_nan => None
  end.

(** [static_cast<int>(x)] for a double [x].  C++ leaves the conversion
    undefined when the integral part does not fit an [int]; the modelled value
    is the one the x86 conversion instruction delivers, [INT_MIN]. *)
Definition static_cast_int (x : double) : Z :=
  match trunc x with
  | Some z => if decide (INT_MIN ≤ z ≤ INT_MAX)%Z then z else INT_MIN
  | None => INT_MIN
  end.

(** [int] arithmetic.  C++ leaves signed overflow undefined; the modelled
    value is the one two's-complement hardware delivers, the result reduced
    to 32 bits. *)
Definition int_wrap (z : Z) : Z :=
  ((z - INT_MIN) mod 2 ^ 32 + INT_MIN)%Z.

Definition int_add (a b : Z) : Z := int_wrap (a + b).
Definition int_mul (a b : Z) : Z := int_wrap (a * b).

(** [static_cast<int>(n)] for an [Eigen::Index] [n]. *)
Definition Index_to_int (n : nat) : Z := int_wrap (Z.of_nat n).

(** Conversion of an [Eigen::Index] to [double]. *)
Definition Index_to_double (n : nat) : double :=
  PrimFloat.of_uint63 (Uint63.of_Z (Z.of_nat n)).

(** [for (int i = 0; i < n; ++i) body], as a state transformer. *)
Definition for_ {St : Type} (n : nat) (body : nat → St → St) (s : St) : St :=
  foldl (λ s i, body i s) s (seq 0 n).

(** ** Exceptions *)

(** The outcome of a computation that may throw. *)
Inductive except (A : Type) : Type :=
  | Returned (a : A)
  | Thrown.
Arguments Returned {A} _.
Arguments Thrown {A}.

#[global] Instance except_ret : MRet except := λ A, Returned.
#[global] Instance except_bind : MBind except :=
  λ A B f m, match m with Returned a => f a | Thrown => Thrown end.

(** [try { body } catch (...) { return handler; }]. *)
Definition try_catch {A} (body : except A) (handler : A) : A :=
  match body with
  | Returned a => a
  | Thrown => handler
  end.

(** Functions that never throw. *)
Definition nothrow {A B} (f : A → B) : A → except B :=
  λ a, Returned (f a).
Definition nothrow2 {A B C} (f : A → B → C) : A → B → except C :=
  λ a b, Returned (f a b).

(** ** Data model *)

(** Modelled from the spec: Excel's [_FP12] struct, which the sources use
    through [fp->rows], [fp->columns] and [fp->array] but do not declare.  The
    spec describes it as a flat buffer of [rows * columns] doubles, laid out
    row by row, with its row and column counts. *)
Record _FP12 : Set := mk_FP12 {
  rows : nat;
  columns : nat;
  array : list double
}.

(** Cell [(i, j)] of an array, read row-major. *)
Definition cell (x : _FP12) (i j : nat) : double :=
  array x !!! (i * columns x + j).

(** Eigen's dense matrix; [m_data] is column-major, so coefficient [(i, j)]
    sits at offset [i + j * m_rows]. *)
Record Matrix (T : Type) : Type := mkMatrix {
  m_rows : nat;
  m_cols : nat;
  m_data : list T
}.
Arguments mkMatrix {T} _ _ _.
Arguments m_rows {T} _.
Arguments m_cols {T} _.
Arguments m_data {T} _.

Record complex : Set := mkComplex { re : double; im : double }.

Abbreviation MatrixXd := (Matrix double).
Abbreviation VectorXd := (list double).
Abbreviation MatrixXcd := (Matrix complex).
Abbreviation VectorXcd := (list complex).

(** [A(i, j)]. *)
Definition coeff (A : MatrixXd) (i j : nat) : double :=
  m_data A !!! (i + j * m_rows A).

(** The dense matrix whose coefficient [(i, j)] is [f i j]
    (Eigen's [NullaryExpr], evaluated into column-major storage). *)
Definition NullaryExpr (r c : nat) (f : nat → nat → double) : MatrixXd :=
  {| m_rows := r; m_cols := c;
     m_data := (λ p, f (p mod r) (p / r)) <$> seq 0 (r * c) |}.

(** The invariants of the two representations. *)
Definition FP12_wf (fp : _FP12) : Prop :=
  length (array fp) = rows fp * columns fp.

Definition Matrix_wf {T} (A : Matrix T) : Prop :=
  length (m_data A) = m_rows A * m_cols A.

(** *** Eigen expressions evaluated by the add-in code itself *)

Definition Identity (r c : nat) : MatrixXd :=
  NullaryExpr r c (λ i j, if decide (i = j) then 1%float else 0%float).

Definition Zero (r c : nat) : MatrixXd :=
  NullaryExpr r c (λ _ _, 0%float).

Definition transpose (A : MatrixXd) : MatrixXd :=
  NullaryExpr (m_cols A) (m_rows A) (λ i j, coeff A j i).

(** For real scalars [adjoint] is [transpose]. *)
Definition adjoint (A : MatrixXd) : MatrixXd := transpose A.

Definition cwise (op : double → double → double) (A B : MatrixXd) : MatrixXd :=
  NullaryExpr (m_rows A) (m_cols A) (λ i j, op (coeff A i j) (coeff B i j)).

Definition diagonal (A : MatrixXd) : VectorXd :=
  (λ i, coeff A i i) <$> seq 0 (m_rows A `min` m_cols A).

Definition col (A : MatrixXd) (j : nat) : VectorXd :=
  (λ i, coeff A i j) <$> seq 0 (m_rows A).

(** [v.asDiagonal()] assigned to a dense matrix. *)
Definition asDiagonal (v : VectorXd) : MatrixXd :=
  NullaryExpr (length v) (length v)
    (λ i j, if decide (i = j) then v !!! i else 0%float).

(** [A.triangularView<Upper>()] and [<Lower>] assigned to a dense matrix:
    the other triangle is filled with zeros. *)
Definition triangularView_Upper (A : MatrixXd) : MatrixXd :=
  NullaryExpr (m_rows A) (m_cols A)
    (λ i j, if decide (i ≤ j) then coeff A i j else 0%float).

Definition triangularView_Lower (A : MatrixXd) : MatrixXd :=
  NullaryExpr (m_rows A) (m_cols A)
    (λ i j, if decide (j ≤ i) then coeff A i j else 0%float).

(** [V * d.asDiagonal()]: column [j] of [V] scaled by [d(j)]. *)
Definition mul_asDiagonal (V : MatrixXd) (d : VectorXd) : MatrixXd :=
  NullaryExpr (m_rows V) (length d) (λ i j, (coeff V i j * d !!! j)%float).

(** Eigen's plain reductions run left to right from the first coefficient;
    [sum] of an empty vector is zero. *)
Definition redux (op : double → double → double) (v : VectorXd) : double :=
  foldl op (v !!! 0) (drop 1 v).

Definition sum (v : VectorXd) : double :=
  match v with [] => 0%float | _ => redux PrimFloat.add v end.

(** [std::max]. *)
Definition std_max (a b : double) : double :=
  if PrimFloat.ltb a b then b else a.

(** [v.array().abs().maxCoeff()]; Eigen requires [v] to be non-empty. *)
Definition abs_maxCoeff (v : VectorXd) : double :=
  redux std_max (PrimFloat.abs <$> v).

Definition trace (A : MatrixXd) : double := sum (diagonal A).

(** [.real()] of a complex vector or matrix. *)
Definition real_vec (v : VectorXcd) : VectorXd := re <$> v.
Definition real_mat (A : MatrixXcd) : MatrixXd :=
  {| m_rows := m_rows A; m_cols := m_cols A; m_data := re <$> m_data A |}.

(** ** The reusable output slot *)

(** The class [FPX] of xll24 wraps an [_FP12]; its header is not part of the
    sources, so its members are modelled from the spec, which describes the
    object as the single reusable output slot that is resized to
    [(rows, cols)] and then overwritten in row-major order. *)
Module FPX.

(** Modelled from the spec: [x.resize(r, c)] leaves a buffer of [r * c]
    cells; cells kept from the previous use hold their old value, fresh ones
    hold no meaningful value. *)
Definition resize (r c : nat) (x : _FP12) : _FP12 :=
  {| rows := r; columns := c;
     array := take (r * c) (array x ++ replicate (r * c) quiet_NaN) |}.

(** Modelled from the spec: [x[i] = v], a write into the flat buffer. *)
Definition set_index (i : nat) (v : double) (x : _FP12) : _FP12 :=
  {| rows := rows x; columns := columns x; array := <[i := v]> (array x) |}.

(** Modelled from the spec: [x(i, j) = v], a write into cell [(i, j)] of the
    row-major buffer. *)
Definition set (i j : nat) (v : double) (x : _FP12) : _FP12 :=
  set_index (i * columns x + j) v x.

(** Modelled from the spec: [x.get()], the wrapped [_FP12]. *)
Definition get (x : _FP12) : _FP12 := x.

End FPX.

(** [Map<Matrix<double, Dynamic, Dynamic, RowMajor>>(x.array(), r, c) = mat]
    for a slot just resized to the shape of [mat]: every cell of the buffer
    is overwritten. *)
Definition Map_RowMajor_assign (mat : MatrixXd) (x : _FP12) : _FP12 :=
  {| rows := rows x; columns := columns x;
     array := (λ p, coeff mat (p / m_cols mat) (p mod m_cols mat))
                <$> seq 0 (m_rows mat * m_cols mat) |}.

(** The shape of the slot and the size of its buffer. *)
Definition extent (x : _FP12) : nat * nat * nat :=
  (rows x, columns x, length (array x)).

(** The function-local [static FPX result] objects, as they are on entry. *)
Record Statics : Set := mkStatics {
  eigen_to_fp_result : _FP12;
  vector_to_fp_result : _FP12;
  row_vector_to_fp_result : _FP12;
  svd_full_result : _FP12
}.

(** ** Layout adapter *)

(** [Map<const Matrix<double, Dynamic, Dynamic, RowMajor>>] over the buffer,
    copied into a (column-major) [MatrixXd]. *)
Definition fp_to_eigen (fp : _FP12) : MatrixXd :=
  NullaryExpr (rows fp) (columns fp) (λ i j, array fp !!! (i * columns fp + j)).

Definition eigen_to_fp (st : Statics) (mat : MatrixXd) : _FP12 :=
  let result := eigen_to_fp_result st in
  let result := FPX.resize (m_rows mat) (m_cols mat) result in
  let result := Map_RowMajor_assign mat result in
  FPX.get result.

Definition vector_to_fp (st : Statics) (vec : VectorXd) : _FP12 :=
  let result := vector_to_fp_result st in
  let result := FPX.resize (length vec) 1 result in
  let result := for_ (length vec) (λ i, FPX.set i 0 (vec !!! i)) result in
  FPX.get result.

Definition row_vector_to_fp (st : Statics) (vec : VectorXd) : _FP12 :=
  let result := row_vector_to_fp_result st in
  let result := FPX.resize 1 (length vec) result in
  let result := for_ (length vec) (λ i, FPX.set 0 i (vec !!! i)) result in
  FPX.get result.

(** ** The numerical kernel *)

Inductive ComputationInfo : Set :=
  Success | NumericalIssue | NoConvergence | InvalidInput.

#[global] Instance ComputationInfo_eq_dec : EqDecision ComputationInfo.
Proof. solve_decision. Defined.

(** What the add-in reads from an [Eigen::LLT] object: [info()] and the
    factor storage behind [matrixL()]. *)
Record LLT_t : Type := mkLLT {
  info : ComputationInfo;
  matrixLLT : MatrixXd
}.

(** [llt.matrixL()] assigned to a dense matrix. *)
Definition matrixL (llt : LLT_t) : MatrixXd :=
  triangularView_Lower (matrixLLT llt).

(** What the add-in reads from a thin [Eigen::JacobiSVD]. *)
Record SVD_t : Type := mkSVD {
  matrixU : MatrixXd;
  singularValues : VectorXd;
  matrixV : MatrixXd
}.

(** What the add-in reads from an [Eigen::EigenSolver]. *)
Record EigenSolver_t : Type := mkEigenSolver {
  eigenvalues : VectorXcd;
  eigenvectors : MatrixXcd
}.

(** ** Operation catalogue *)

Section Catalogue.

(** The output slots as they are when the call starts. *)
Variable st : Statics.

(** Eigen's kernels. *)
Variable operator_mul : MatrixXd → MatrixXd → except MatrixXd.   (* A * B *)
Variable norm : MatrixXd → except double.                        (* A.norm() *)
Variable determinant : MatrixXd → except double.                 (* A.determinant() *)
Variable inverse : MatrixXd → except MatrixXd.                   (* A.inverse() *)
Variable FullPivLU_rank : MatrixXd → except nat.                 (* FullPivLU(A).rank() *)
Variable PartialPivLU_matrixLU : MatrixXd → except MatrixXd.     (* PartialPivLU(A).matrixLU() *)
Variable PartialPivLU_solve : MatrixXd → MatrixXd → except MatrixXd. (* A.lu().solve(b) *)
Variable HouseholderQR_matrixQR : MatrixXd → except MatrixXd.    (* HouseholderQR(A).matrixQR() *)
Variable LLT : MatrixXd → except LLT_t.                          (* LLT<MatrixXd> llt(A) *)
Variable JacobiSVD : MatrixXd → except SVD_t.                    (* JacobiSVD<MatrixXd, ...> svd(A) *)
Variable EigenSolver : MatrixXd → except EigenSolver_t.          (* EigenSolver<MatrixXd> es(A) *)
Variable BDCSVD_solve : MatrixXd → MatrixXd → except MatrixXd.   (* BDCSVD(A).solve(b) *)

(** *** Basic operations *)

Definition xll_matrix_add (pa pb : _FP12) : option _FP12 :=
  try_catch (
    let A := fp_to_eigen pa in
    let B := fp_to_eigen pb in
    if decide (m_rows A ≠ m_rows B ∨ m_cols A ≠ m_cols B) then mret None
    else
      let C := cwise PrimFloat.add A B in
      mret (Some (eigen_to_fp st C)))
  None.

Definition xll_matrix_sub (pa pb : _FP12) : option _FP12 :=
  try_catch (
    let A := fp_to_eigen pa in
    let B := fp_to_eigen pb in
    if decide (m_rows A ≠ m_rows B ∨ m_cols A ≠ m_cols B) then mret None
    else
      let C := cwise PrimFloat.sub A B in
      mret (Some (eigen_to_fp st C)))
  None.

Definition xll_matrix_mul (pa pb : _FP12) : option _FP12 :=
  try_catch (
    let A := fp_to_eigen pa in
    let B := fp_to_eigen pb in
    if decide (m_cols A ≠ m_rows B) then mret None
    else
      C ← operator_mul A B;
      mret (Some (eigen_to_fp st C)))
  None.

Definition xll_matrix_transpose (pa : _FP12) : option _FP12 :=
  try_catch (
    let A := fp_to_eigen pa in
    let At := transpose A in
    mret (Some (eigen_to_fp st At)))
  None.

Definition xll_matrix_trace (pa : _FP12) : double :=
  try_catch (
    let A := fp_to_eigen pa in
    if decide (m_rows A ≠ m_cols A) then mret quiet_NaN
    else mret (trace A))
  quiet_NaN.

Definition xll_matrix_norm (pa : _FP12) : double :=
  try_catch (
    let A := fp_to_eigen pa in
    norm A)
  quiet_NaN.

Definition xll_matrix_det (pa : _FP12) : double :=
  try_catch (
    let A := fp_to_eigen pa in
    if decide (m_rows A ≠ m_cols A) then mret quiet_NaN
    else determinant A)
  quiet_NaN.

Definition xll_matrix_rank (pa : _FP12) : double :=
  try_catch (
    let A := fp_to_eigen pa in
    rank ← FullPivLU_rank A;
    mret (Index_to_double rank))
  quiet_NaN.

(** *** Decompositions *)

Definition xll_matrix_inv (pa : _FP12) : option _FP12 :=
  try_catch (
    let A := fp_to_eigen pa in
    if decide (m_rows A ≠ m_cols A) then mret None
    else
      Ainv ← inverse A;
      mret (Some (eigen_to_fp st Ainv)))
  None.

(** The source also builds [L] and [U] from the factor storage and then
    discards them. *)
Definition xll_matrix_lu (pa : _FP12) : option _FP12 :=
  try_catch (
    let A := fp_to_eigen pa in
    if decide (m_rows A ≠ m_cols A) then mret None
    else
      LU ← PartialPivLU_matrixLU A;
      mret (Some (eigen_to_fp st LU)))
  None.

Definition xll_matrix_qr (pa : _FP12) : option _FP12 :=
  try_catch (
    let A := fp_to_eigen pa in
    matrixQR ← HouseholderQR_matrixQR A;
    let R := triangularView_Upper matrixQR in
    mret (Some (eigen_to_fp st R)))
  None.

Definition xll_matrix_cholesky (pa : _FP12) : option _FP12 :=
  try_catch (
    let A := fp_to_eigen pa in
    if decide (m_rows A ≠ m_cols A) then mret None
    else
      llt ← LLT A;
      if decide (info llt ≠ Success) then mret None
      else
        let L := matrixL llt in
        mret (Some (eigen_to_fp st L)))
  None.

Definition xll_matrix_svd (pa : _FP12) : option _FP12 :=
  try_catch (
    let A := fp_to_eigen pa in
    svd ← JacobiSVD A;
    let sigma := singularValues svd in
    mret (Some (vector_to_fp st sigma)))
  None.

(** The sizes [m], [n], [k], [max_cols], [total_rows] and the bound
    [total_rows * max_cols] of the zero-fill loop are [int]s; a loop counter
    starts at 0 and stays below its [int] bound. *)
Definition xll_matrix_svd_full (pa : _FP12) : option _FP12 :=
  try_catch (
    let A := fp_to_eigen pa in
    svd ← JacobiSVD A;
    let U := matrixU svd in
    let sigma := singularValues svd in
    let V := matrixV svd in
    let Vt := transpose V in
    let m := Index_to_int (m_rows A) in
    let n := Index_to_int (m_cols A) in
    let k := Index_to_int (length sigma) in
    let Sigma := asDiagonal sigma in
    let max_cols := Z.max m n in
    let max_cols := Z.max max_cols k in
    let total_rows := int_add (int_add m k) k in
    let result := svd_full_result st in
    let result := FPX.resize (Z.to_nat total_rows) (Z.to_nat max_cols) result in
    let result :=
      for_ (Z.to_nat (int_mul total_rows max_cols))
        (λ i, FPX.set_index i 0%float) result in
    let result :=
      for_ (Z.to_nat m) (λ i, for_ (Z.to_nat k) (λ j,
        FPX.set i j (coeff U i j))) result in
    let result :=
      for_ (Z.to_nat k) (λ i, for_ (Z.to_nat k) (λ j,
        FPX.set (Z.to_nat (int_add m (Z.of_nat i))) j (coeff Sigma i j))) result in
    let result :=
      for_ (Z.to_nat k) (λ i, for_ (Z.to_nat n) (λ j,
        FPX.set (Z.to_nat (int_add (int_add m k) (Z.of_nat i))) j
          (coeff Vt i j))) result in
    mret (Some (FPX.get result)))
  None.

Definition xll_matrix_eigenvalues (pa : _FP12) : option _FP12 :=
  try_catch (
    let A := fp_to_eigen pa in
    if decide (m_rows A ≠ m_cols A) then mret None
    else
      es ← EigenSolver A;
      let eigenvalues := real_vec (eigenvalues es) in
      mret (Some (vector_to_fp st eigenvalues)))
  None.

Definition xll_matrix_eigenvectors (pa : _FP12) : option _FP12 :=
  try_catch (
    let A := fp_to_eigen pa in
    if decide (m_rows A ≠ m_cols A) then mret None
    else
      es ← EigenSolver A;
      let eigenvectors := real_mat (eigenvectors es) in
      mret (Some (eigen_to_fp st eigenvectors)))
  None.

(** *** Solvers *)

Definition xll_matrix_solve (pa pb : _FP12) : option _FP12 :=
  try_catch (
    let A := fp_to_eigen pa in
    let b := fp_to_eigen pb in
    if decide (m_rows A ≠ m_cols A ∨ m_rows A ≠ m_rows b) then mret None
    else
      x ← PartialPivLU_solve A b;
      mret (Some (eigen_to_fp st x)))
  None.

Definition xll_matrix_lstsq (pa pb : _FP12) : option _FP12 :=
  try_catch (
    let A := fp_to_eigen pa in
    let b := fp_to_eigen pb in
    if decide (m_rows A ≠ m_rows b) then mret None
    else
      x ← BDCSVD_solve A b;
      mret (Some (eigen_to_fp st x)))
  None.

(** The tolerance of the pseudoinverse,
    [epsilon() * max_dim * singularValues.array().abs().maxCoeff()]. *)
Definition pinv_tolerance (A : MatrixXd) (sv : VectorXd) : double :=
  let max_dim := m_rows A `max` m_cols A in
  (epsilon * Index_to_double max_dim * abs_maxCoeff sv)%float.

(** The loop that fills [singularValuesInv], a vector allocated without
    initialisation. *)
Definition pinv_singularValuesInv (tolerance : double) (sv : VectorXd) : VectorXd :=
  let singularValuesInv := replicate (length sv) quiet_NaN in
  for_ (length sv)
    (λ i singularValuesInv,
       if PrimFloat.ltb tolerance (sv !!! i)
       then <[i := (1 / sv !!! i)%float]> singularValuesInv
       else <[i := 0%float]> singularValuesInv)
    singularValuesInv.

Definition xll_matrix_pinv (pa : _FP12) : option _FP12 :=
  try_catch (
    let A := fp_to_eigen pa in
    svd ← JacobiSVD A;
    let tolerance := pinv_tolerance A (singularValues svd) in
    let singularValuesInv := pinv_singularValuesInv tolerance (singularValues svd) in
    Ainv ← operator_mul (mul_asDiagonal (matrixV svd) singularValuesInv)
                        (adjoint (matrixU svd));
    mret (Some (eigen_to_fp st Ainv)))
  None.

(** *** Generators and utilities *)

Definition xll_matrix_identity (n : double) : option _FP12 :=
  try_catch (
    let dim := static_cast_int n in
    if decide (dim ≤ 0 ∨ dim > 10000)%Z then mret None
    else
      let I := Identity (Z.to_nat dim) (Z.to_nat dim) in
      mret (Some (eigen_to_fp st I)))
  None.

Definition xll_matrix_zeros (m n : double) : option _FP12 :=
  try_catch (
    let rows := static_cast_int m in
    let cols := static_cast_int n in
    if decide (rows ≤ 0 ∨ cols ≤ 0 ∨ rows > 10000 ∨ cols > 10000)%Z then mret None
    else
      let Z := Zero (Z.to_nat rows) (Z.to_nat cols) in
      mret (Some (eigen_to_fp st Z)))
  None.

Definition xll_matrix_diag (pa : _FP12) : option _FP12 :=
  try_catch (
    let A := fp_to_eigen pa in
    if decide (m_cols A = 1) then
      let v := col A 0 in
      let D := asDiagonal v in
      mret (Some (eigen_to_fp st D))
    else
      let d := diagonal A in
      mret (Some (vector_to_fp st d)))
  None.

End Catalogue.

(** ** The catalogue as the host sees it *)

(** The kernels, bundled. *)
Record Kernel : Type := mkKernel {
  k_operator_mul : MatrixXd → MatrixXd → except MatrixXd;
  k_norm : MatrixXd → except double;
  k_determinant : MatrixXd → except double;
  k_inverse : MatrixXd → except MatrixXd;
  k_FullPivLU_rank : MatrixXd → except nat;
  k_PartialPivLU_matrixLU : MatrixXd → except MatrixXd;
  k_PartialPivLU_solve : MatrixXd → MatrixXd → except MatrixXd;
  k_HouseholderQR_matrixQR : MatrixXd → except MatrixXd;
  k_LLT : MatrixXd → except LLT_t;
  k_JacobiSVD : MatrixXd → except SVD_t;
  k_EigenSolver : MatrixXd → except EigenSolver_t;
  k_BDCSVD_solve : MatrixXd → MatrixXd → except MatrixXd
}.

(** The registered return types, [Function(XLL_FP, ...)] and
    [Function(XLL_DOUBLE, ...)]. *)
Inductive xll_type : Set := XLL_FP | XLL_DOUBLE.

(** What comes back from a call: an array pointer or a raw double.  There is
    nothing else: no error code and no message. *)
Inductive xll_value : Set :=
  | FP (p : option _FP12)
  | DOUBLE (d : double).

(** A worksheet call of one of the 22 registered functions. *)
Inductive call : Set :=
  | MATRIX_ADD (pa pb : _FP12)
  | MATRIX_SUB (pa pb : _FP12)
  | MATRIX_MUL (pa pb : _FP12)
  | MATRIX_TRANSPOSE (pa : _FP12)
  | MATRIX_TRACE (pa : _FP12)
  | MATRIX_NORM (pa : _FP12)
  | MATRIX_DETERMINANT (pa : _FP12)
  | MATRIX_RANK (pa : _FP12)
  | MATRIX_INVERSE (pa : _FP12)
  | MATRIX_LU (pa : _FP12)
  | MATRIX_QR (pa : _FP12)
  | MATRIX_CHOLESKY (pa : _FP12)
  | MATRIX_SVD (pa : _FP12)
  | MATRIX_SVD_FULL (pa : _FP12)
  | MATRIX_EIGENVALUES (pa : _FP12)
  | MATRIX_EIGENVECTORS (pa : _FP12)
  | MATRIX_SOLVE (pa pb : _FP12)
  | MATRIX_LSTSQ (pa pb : _FP12)
  | MATRIX_PSEUDO_INV (pa : _FP12)
  | MATRIX_IDENTITY (n : double)
  | MATRIX_ZEROS (m n : double)
  | MATRIX_DIAG (pa : _FP12).

Definition return_type (c : call) : xll_type :=
  match c with
  | MATRIX_TRACE _ | MATRIX_NORM _ | MATRIX_DETERMINANT _ | MATRIX_RANK _ => XLL_DOUBLE
  | _ => XLL_FP
  end.

Definition invoke (st : Statics) (K : Kernel) (c : call) : xll_value :=
  match c with
  | MATRIX_ADD pa pb => FP (xll_matrix_add st pa pb)
  | MATRIX_SUB pa pb => FP (xll_matrix_sub st pa pb)
  | MATRIX_MUL pa pb => FP (xll_matrix_mul st (k_operator_mul K) pa pb)
  | MATRIX_TRANSPOSE pa => FP (xll_matrix_transpose st pa)
  | MATRIX_TRACE pa => DOUBLE (xll_matrix_trace pa)
  | MATRIX_NORM pa => DOUBLE (xll_matrix_norm (k_norm K) pa)
  | MATRIX_DETERMINANT pa => DOUBLE (xll_matrix_det (k_determinant K) pa)
  | MATRIX_RANK pa => DOUBLE (xll_matrix_rank (k_FullPivLU_rank K) pa)
  | MATRIX_INVERSE pa => FP (xll_matrix_inv st (k_inverse K) pa)
  | MATRIX_LU pa => FP (xll_matrix_lu st (k_PartialPivLU_matrixLU K) pa)
  | MATRIX_QR pa => FP (xll_matrix_qr st (k_HouseholderQR_matrixQR K) pa)
  | MATRIX_CHOLESKY pa => FP (xll_matrix_cholesky st (k_LLT K) pa)
  | MATRIX_SVD pa => FP (xll_matrix_svd st (k_JacobiSVD K) pa)
  | MATRIX_SVD_FULL pa => FP (xll_matrix_svd_full st (k_JacobiSVD K) pa)
  | MATRIX_EIGENVALUES pa => FP (xll_matrix_eigenvalues st (k_EigenSolver K) pa)
  | MATRIX_EIGENVECTORS pa => FP (xll_matrix_eigenvectors st (k_EigenSolver K) pa)
  | MATRIX_SOLVE pa pb => FP (xll_matrix_solve st (k_PartialPivLU_solve K) pa pb)
  | MATRIX_LSTSQ pa pb => FP (xll_matrix_lstsq st (k_BDCSVD_solve K) pa pb)
  | MATRIX_PSEUDO_INV pa =>
      FP (xll_matrix_pinv st (k_operator_mul K) (k_JacobiSVD K) pa)
  | MATRIX_IDENTITY n => FP (xll_matrix_identity st n)
  | MATRIX_ZEROS m n => FP (xll_matrix_zeros st m n)
  | MATRIX_DIAG pa => FP (xll_matrix_diag st pa)
  end.

(** The failure sentinel of each return type. *)
Definition sentinel (t : xll_type) : xll_value :=
  match t with
  | XLL_FP => FP None
  | XLL_DOUBLE => DOUBLE quiet_NaN
  end.

Definition valid_dim (d : Z) : Prop := (0 < d ≤ 10000)%Z.

(** A kernel call that comes back without a fault. *)
Definition returns {A} (e : except A) : Prop := ∃ a, e = Returned a.

(** The conditions under which a call does not fail (sections 4.2 and 7 of
    the specification): the shape requirement of the operation, the kernel
    returning without a fault and, for Cholesky, its success flag. *)
Definition accepted (K : Kernel) (c : call) : Prop :=
  match c with
  | MATRIX_ADD pa pb | MATRIX_SUB pa pb =>
      rows pa = rows pb ∧ columns pa = columns pb
  | MATRIX_MUL pa pb =>
      columns pa = rows pb ∧
      returns (k_operator_mul K (fp_to_eigen pa) (fp_to_eigen pb))
  | MATRIX_TRANSPOSE _ | MATRIX_DIAG _ => True
  | MATRIX_TRACE pa => rows pa = columns pa
  | MATRIX_NORM pa => returns (k_norm K (fp_to_eigen pa))
  | MATRIX_DETERMINANT pa =>
      rows pa = columns pa ∧ returns (k_determinant K (fp_to_eigen pa))
  | MATRIX_RANK pa => returns (k_FullPivLU_rank K (fp_to_eigen pa))
  | MATRIX_INVERSE pa =>
      rows pa = columns pa ∧ returns (k_inverse K (fp_to_eigen pa))
  | MATRIX_LU pa =>
      rows pa = columns pa ∧ returns (k_PartialPivLU_matrixLU K (fp_to_eigen pa))
  | MATRIX_QR pa => returns (k_HouseholderQR_matrixQR K (fp_to_eigen pa))
  | MATRIX_CHOLESKY pa =>
      rows pa = columns pa ∧
      ∃ llt, k_LLT K (fp_to_eigen pa) = Returned llt ∧ info llt = Success
  | MATRIX_SVD pa | MATRIX_SVD_FULL pa => returns (k_JacobiSVD K (fp_to_eigen pa))
  | MATRIX_EIGENVALUES pa | MATRIX_EIGENVECTORS pa =>
      rows pa = columns pa ∧ returns (k_EigenSolver K (fp_to_eigen pa))
  | MATRIX_SOLVE pa pb =>
      (rows pa = columns pa ∧ rows pa = rows pb) ∧
      returns (k_PartialPivLU_solve K (fp_to_eigen pa) (fp_to_eigen pb))
  | MATRIX_LSTSQ pa pb =>
      rows pa = rows pb ∧
      returns (k_BDCSVD_solve K (fp_to_eigen pa) (fp_to_eigen pb))
  | MATRIX_PSEUDO_INV pa =>
      ∃ svd, k_JacobiSVD K (fp_to_eigen pa) = Returned svd ∧
        let sv := singularValues svd in
        let sinv := pinv_singularValuesInv (pinv_tolerance (fp_to_eigen pa) sv) sv in
        returns (k_operator_mul K (mul_asDiagonal (matrixV svd) sinv)
                                  (adjoint (matrixU svd)))
  | MATRIX_IDENTITY n => valid_dim (static_cast_int n)
  | MATRIX_ZEROS m n => valid_dim (static_cast_int m) ∧ valid_dim (static_cast_int n)
  end.

(** ** The pseudoinverse as the specification words it *)

(** Following the specification: singular values below the tolerance are
    inverted to zero, the rest are replaced by their reciprocal. *)
Definition spec_singularValuesInv (tolerance : double) (sv : VectorXd) : VectorXd :=
  (λ s, if PrimFloat.ltb s tolerance then 0%float else (1 / s)%float) <$> sv.

(** The rows of a matrix. *)
Definition to_rows (A : MatrixXd) : list (list double) :=
  (λ i, (λ j, coeff A i j) <$> seq 0 (m_cols A)) <$> seq 0 (m_rows A).

(** ** A reference kernel

    Textbook binary64 versions of the kernels the catalogue is parametrised
    by: row-by-column product, LU with partial pivoting, Cholesky.  They run
    inside Rocq and serve to evaluate the catalogue on concrete matrices;
    Eigen's own kernels differ from them in blocking and summation order. *)
Module Ref.

Abbreviation row := (list double).

Definition of_rows (r c : nat) (L : list row) : MatrixXd :=
  NullaryExpr r c (λ i j, (L !!! i) !!! j).

Definition mul (A B : MatrixXd) : MatrixXd :=
  NullaryExpr (m_rows A) (m_cols B)
    (λ i j, foldl (λ acc k, (acc + coeff A i k * coeff B k j)%float)
                  0%float (seq 0 (m_cols A))).

(** Position of the first row whose entry in column [k] is largest in
    absolute value. *)
Definition pivot_row (k : nat) (rem : list row) : nat :=
  fst (foldl (λ '(best, i) r,
         (if PrimFloat.ltb (PrimFloat.abs ((rem !!! best) !!! k))
                           (PrimFloat.abs (r !!! k))
          then i else best, S i))
       (0, 0) rem).

(** Gaussian elimination with row exchanges on the rows [rem], which still
    await a pivot in column [k]; returns the pivot rows in order and the
    number of exchanges.  A zero pivot is not divided by. *)
Fixpoint eliminate (steps k : nat) (rem : list row) : list row * nat :=
  match steps with
  | 0 => ([], 0)
  | S steps =>
      let q := pivot_row k rem in
      let p := rem !!! q in
      let rest := drop 1 (<[q := rem !!! 0]> rem) in
      let piv := p !!! k in
      let reduce (r : row) :=
        let l := if PrimFloat.eqb piv 0 then r !!! k else (r !!! k / piv)%float in
        zip_with (λ a b, (a - l * b)%float) r p in
      let '(U, swaps) := eliminate steps (S k) (reduce <$> rest) in
      (p :: U, if decide (q = 0) then swaps else S swaps)
  end.

(** Back substitution on the pivot rows of [[U | B]]. *)
Definition back_substitute (n : nat) (U : list row) : list row :=
  foldr (λ '(k, u) X,
           let rhs := drop n u in
           let acc :=
             foldl (λ acc '(j, xj),
                      zip_with (λ a x, (a - u !!! j * x)%float) acc xj)
                   rhs (zip (seq (S k) (n - S k)) X) in
           ((λ a, (a / u !!! k)%float) <$> acc) :: X)
        [] (zip (seq 0 n) U).

Definition solve (A b : MatrixXd) : MatrixXd :=
  let n := m_rows A in
  let aug := zip_with app (to_rows A) (to_rows b) in
  of_rows n (m_cols b) (back_substitute n (fst (eliminate n 0 aug))).

Definition inverse (A : MatrixXd) : MatrixXd :=
  solve A (Identity (m_rows A) (m_cols A)).

Definition determinant (A : MatrixXd) : double :=
  let n := m_rows A in
  let '(U, swaps) := eliminate n 0 (to_rows A) in
  let sign := if Nat.even swaps then 1%float else (-1)%float in
  foldl (λ acc '(k, u), (acc * u !!! k)%float) sign (zip (seq 0 n) U).

(** Cholesky, column by column; [Lcols] holds the columns already computed.
    Only the lower triangle of [A] is read. *)
Fixpoint cholesky_columns (steps k : nat) (A : MatrixXd) (Lcols : list (list double))
  : option (list (list double)) :=
  match steps with
  | 0 => Some Lcols
  | S steps =>
      let dot (i : nat) :=
        foldl (λ acc c, (acc + c !!! i * c !!! k)%float) 0%float Lcols in
      let x := (coeff A k k - dot k)%float in
      if PrimFloat.leb x 0 then None
      else
        let d := PrimFloat.sqrt x in
        let colk :=
          (λ i, if decide (i < k) then 0%float
                else if decide (i = k) then d
                else ((coeff A i k - dot i) / d)%float) <$> seq 0 (m_rows A) in
        cholesky_columns steps (S k) A (Lcols ++ [colk])
  end.

(** The factor is stored over the lower triangle of a copy of [A]. *)
Definition llt (A : MatrixXd) : LLT_t :=
  match cholesky_columns (m_rows A) 0 A [] with
  | Some Lcols =>
      {| info := Success;
         matrixLLT := NullaryExpr (m_rows A) (m_cols A)
           (λ i j, if decide (j ≤ i) then (Lcols !!! j) !!! i else coeff A i j) |}
  | None => {| info := NumericalIssue; matrixLLT := A |}
  end.

(** The thin SVD of a matrix that is already diagonal with a non-negative,
    non-increasing diagonal: the singular vectors are unit vectors. *)
Definition svd_of_diagonal (A : MatrixXd) : SVD_t :=
  let k := m_rows A `min` m_cols A in
  {| matrixU := Identity (m_rows A) k;
     singularValues := diagonal A;
     matrixV := Identity (m_cols A) k |}.

(** The Householder QR storage of a matrix that is already upper
    triangular: no reflection is applied. *)
Definition qr_of_upper (A : MatrixXd) : MatrixXd := A.

End Ref.

(** ** Exact linear algebra on binary64 data

    A finite double is a dyadic rational [m * 2^e]; determinants of matrices
    of doubles can therefore be computed exactly, up to a positive power of
    two, over the integers. *)

Definition dyadic (x : double) : option (Z * Z) :=
  match Prim2SF x with
  | S754_zero _ => Some (0, 0)%Z
  | S754_finite s m e => Some (if s then Z.neg m else Z.pos m, e)
  | S754_infinity _ | S754_nan => None
  end.

(** The rows of [A] scaled by a common power of two that makes every entry
    an integer; [None] if some entry is not finite. *)
Definition integer_rows (A : MatrixXd) : option (list (list Z)) :=
  match mapM (M := option) (mapM (M := option) dyadic) (to_rows A) with
  | Some d =>
      let emin := foldr Z.min 0%Z (snd <$> concat d) in
      Some ((λ r : list (Z * Z), (λ '(m, e), (m * 2 ^ (e - emin))%Z) <$> r) <$> d)
  | None => None
  end.

(** Determinant of the leading [n × n] block, by expansion along the first row. *)
Fixpoint det_rows (n : nat) (M : list (list Z)) : Z :=
  match n, M with
  | S n', r :: rest =>
      foldr Z.add 0%Z
        ((λ j, ((if Nat.even j then 1 else -1) * r !!! j *
                det_rows n' (delete j <$> rest))%Z) <$> seq 0 n)
  | _, _ => 1%Z
  end.

(** The value of a double that is an integer. *)
Definition integer_value (x : double) : option Z :=
  match Prim2SF x with
  | S754_zero _ => Some 0%Z
  | S754_finite s m e =>
      let a := if s then Z.neg m else Z.pos m in
      if decide (0 ≤ e)%Z then Some (a * 2 ^ e)%Z
      else if decide (Z.pos m mod 2 ^ (- e) = 0)%Z then Some (a / 2 ^ (- e))%Z
      else None
  | S754_infinity _ | S754_nan => None
  end.

(** The exact trace and the exact determinant of a square matrix whose
    entries are integers. *)
Definition exact_trace (A : MatrixXd) : option Z :=
  foldr Z.add 0%Z <$> mapM (M := option) integer_value (diagonal A).

Definition exact_determinant (A : MatrixXd) : option Z :=
  det_rows (m_rows A)
    <$> mapM (M := option) (mapM (M := option) integer_value) (to_rows A).

(** Leading principal [k × k] block. *)
Definition leading (k : nat) (M : list (list Z)) : list (list Z) :=
  take k <$> take k M.

(** [A] is square with finite entries and its determinant is exactly zero. *)
Definition singular (A : MatrixXd) : bool :=
  bool_decide (m_rows A = m_cols A) &&
  match integer_rows A with
  | Some M => bool_decide (det_rows (m_rows A) M = 0%Z)
  | None => false
  end.

(** [A] is symmetric and positive definite: all its leading principal
    minors are positive (Sylvester's criterion), computed exactly. *)
Definition SPD (A : MatrixXd) : bool :=
  bool_decide (m_rows A = m_cols A) &&
  forallb (λ i, forallb (λ j, PrimFloat.eqb (coeff A i j) (coeff A j i))
                  (seq 0 (m_cols A))) (seq 0 (m_rows A)) &&
  match integer_rows A with
  | Some M =>
      forallb (λ k, bool_decide (0 < det_rows k (leading k M))%Z)
              (seq 1 (m_rows A))
  | None => false
  end.

(** [L] has only zeros above its diagonal. *)
Definition lower_triangular (L : MatrixXd) : Prop :=
  ∀ i j, i < m_rows L → j < m_cols L → i < j → coeff L i j = 0%float.

(** [R] has only zeros below its diagonal. *)
Definition upper_triangular (R : MatrixXd) : Prop :=
  ∀ i j, i < m_rows R → j < m_cols R → j < i → coeff R i j = 0%float.

(** ** Comparison within a tolerance *)

(** Every coefficient of [A] is within [tol] of the matching one of [B]. *)
Definition approx (tol : double) (A B : MatrixXd) : bool :=
  bool_decide (m_rows A = m_rows B) && bool_decide (m_cols A = m_cols B) &&
  forallb (λ i, forallb (λ j,
             PrimFloat.leb (PrimFloat.abs (coeff A i j - coeff B i j)) tol)
           (seq 0 (m_cols A))) (seq 0 (m_rows A)).

(** ** What the catalogue relies on from the kernel *)

(** The shapes of a thin SVD of an [m × n] matrix, with [k = min(m, n)]:
    [U] is [m × k], there are [k] singular values, [V] is [n × k]. *)
Definition thin_SVD_shape (svd : SVD_t) (A : MatrixXd) : Prop :=
  let k := m_rows A `min` m_cols A in
  length (singularValues svd) = k ∧
  m_rows (matrixU svd) = m_rows A ∧ m_cols (matrixU svd) = k ∧
  m_rows (matrixV svd) = m_cols A ∧ m_cols (matrixV svd) = k.

(** ** Exact counting in binary64 *)

(** The check that [double(k) + 1.0 = double(k + 1)] for every [k] from [z]
    up to [z + fuel]: running sums of ones are not rounded there. *)
Fixpoint counts_exactly (fuel : nat) (z : Z) : bool :=
  match fuel with
  | 0 => true
  | S fuel =>
      PrimFloat.Leibniz.eqb
        (PrimFloat.of_uint63 (Uint63.of_Z z) + 1)%float
        (PrimFloat.of_uint63 (Uint63.of_Z (z + 1)))
      && counts_exactly fuel (z + 1)
  end.

(** ** Sample data *)

Definition st0 : Statics :=
  let empty := {| rows := 0; columns := 0; array := [] |} in
  mkStatics empty empty empty empty.

(** Output slots that still hold an earlier, larger result. *)
Definition st_used : Statics :=
  let old := {| rows := 3; columns := 4; array := replicate 12 7%float |} in
  mkStatics old old old old.

Definition fp (r c : nat) (a : list double) : _FP12 :=
  {| rows := r; columns := c; array := a |}.

Open Scope float_scope.
Definition A_2x2 : _FP12 := fp 2 2 [4; 7; 2; 6].
Definition singular_2x2 : _FP12 := fp 2 2 [1; 2; 2; 4].
Definition spd_2x2 : _FP12 := fp 2 2 [4; 2; 2; 3].
Definition indefinite_2x2 : _FP12 := fp 2 2 [1; 2; 2; 1].
Definition A_2x3 : _FP12 := fp 2 3 [1; 2; 3; 4; 5; 6].
Definition A_3x2 : _FP12 := fp 3 2 [1; 2; 3; 4; 5; 6].
Definition diag_2x3 : _FP12 := fp 2 3 [3; 0; 0; 0; 2; 0].
Definition upper_3x2 : _FP12 := fp 3 2 [1; 2; 0; 3; 0; 0].
Definition b_2x1 : _FP12 := fp 2 1 [1; 2].
Definition b_4x1 : _FP12 := fp 4 1 [1; 2; 3; 4].
Definition A_3x3 : _FP12 := fp 3 3 [2; 0; 1; 1; 3; 2; 1; 1; 4].
Definition column_3 : _FP12 := fp 3 1 [5; 6; 7].
Definition zero_1x1 : _FP12 := fp 1 1 [0].
Definition one_1x1 : _FP12 := fp 1 1 [9].

(** The smallest positive double: its inverse, [2^1074], exceeds every double. *)
Definition tiny_1x1 : _FP12 := fp 1 1 [0x1p-1074].

(** [[1 b] [b c]] with [c] the double next above [b * b]: symmetric, and
    positive definite since [c - b * b = 31 * 2^-60 > 0]. *)
Definition spd_rounded_2x2 : _FP12 :=
  fp 2 2 [1; 0x1.0000003cp+0; 0x1.0000003cp+0; 0x1.0000007800001p+0].

(** Diagonal [1e16, 1, -1e16]: the exact trace is 1. *)
Definition cancelling_3x3 : _FP12 := fp 3 3 [1e16; 0; 0; 0; 1; 0; 0; 0; -1e16].

(** [[2^60 1] [1 1]]: the exact determinant is [2^60 - 1]. *)
Definition odd_2x2 : _FP12 := fp 2 2 [0x1p60; 1; 1; 1].

(** The first unit vector as a column of [m] cells, and one of 46342 cells. *)
Definition unit_column (m : nat) : _FP12 :=
  {| rows := m; columns := 1; array := 1 :: replicate (m - 1) 0 |}.

Definition long_column : _FP12 := unit_column (Z.to_nat 46342).
Close Scope float_scope.

(** * Properties *)

(** Runs the [try]/[catch] block of an operation whose kernels return. *)
Ltac run_try :=
  cbv [try_catch nothrow nothrow2 mbind except_bind mret except_ret].

(** ** Index arithmetic of the two layouts *)

Lemma colmajor_row (r i j : nat) : i < r → (i + j * r) mod r = i.
Proof.
  intros Hi. symmetry. apply (Nat.mod_unique _ _ j); lia.
Qed.

Lemma colmajor_col (r i j : nat) : i < r → (i + j * r) / r = j.
Proof.
  intros Hi. symmetry. apply (Nat.div_unique _ _ _ i); lia.
Qed.

Lemma rowmajor_row (c i j : nat) : j < c → (i * c + j) / c = i.
Proof.
  intros Hj. symmetry. apply (Nat.div_unique _ _ _ j); lia.
Qed.

Lemma rowmajor_col (c i j : nat) : j < c → (i * c + j) mod c = j.
Proof.
  intros Hj. symmetry. apply (Nat.mod_unique _ _ i); lia.
Qed.

Lemma colmajor_lt (r c i j : nat) : i < r → j < c → i + j * r < r * c.
Proof. nia. Qed.

Lemma rowmajor_lt (r c i j : nat) : i < r → j < c → i * c + j < r * c.
Proof. nia. Qed.

Lemma offset_split (r c p : nat) : p < r * c → p mod r < r ∧ p / r < c.
Proof.
  intros Hp. destruct r as [|r]; [lia|]. split.
  - apply Nat.mod_upper_bound; lia.
  - apply Nat.Div0.div_lt_upper_bound; lia.
Qed.

(** A list generated from its offsets. *)
Lemma tabulate_lookup {A} `{Inhabited A} (g : nat → A) (n p : nat) :
  p < n → (g <$> seq 0 n) !!! p = g p.
Proof.
  intros Hp. by rewrite list_lookup_total_alt, list_lookup_fmap, lookup_seq_lt.
Qed.

Lemma tabulate_ext {A} `{Inhabited A} (l : list A) (g : nat → A) (n : nat) :
  length l = n → (∀ p, p < n → l !!! p = g p) → l = g <$> seq 0 n.
Proof.
  intros Hl Hg. apply list_eq_same_length with n; [by rewrite length_fmap, length_seq | done |].
  intros p x y Hp Hx Hy.
  rewrite <- (list_lookup_total_correct _ _ _ Hx).
  rewrite <- (list_lookup_total_correct _ _ _ Hy).
  rewrite tabulate_lookup by done. by apply Hg.
Qed.

(** ** Dense matrices *)

Lemma NullaryExpr_wf r c f : Matrix_wf (NullaryExpr r c f).
Proof. unfold Matrix_wf. simpl. by rewrite length_fmap, length_seq. Qed.

Lemma coeff_NullaryExpr r c f i j :
  i < r → j < c → coeff (NullaryExpr r c f) i j = f i j.
Proof.
  intros Hi Hj. unfold coeff. simpl.
  rewrite tabulate_lookup by (by apply colmajor_lt).
  by rewrite colmajor_row, colmajor_col.
Qed.

(** A well-formed matrix is determined by its shape and coefficients. *)
Lemma MatrixXd_ext (A : MatrixXd) r c f :
  Matrix_wf A → m_rows A = r → m_cols A = c →
  (∀ i j, i < r → j < c → coeff A i j = f i j) →
  A = NullaryExpr r c f.
Proof.
  destruct A as [r' c' d]. unfold Matrix_wf, coeff. simpl.
  intros Hwf -> -> Hf. unfold NullaryExpr. f_equal.
  apply tabulate_ext; [done|]. intros p Hp.
  destruct (offset_split r c p Hp) as [Hi Hj].
  rewrite <- Hf by done. f_equal.
  rewrite (Nat.div_mod_eq p r) at 1. lia.
Qed.

(** ** Layout adapter *)

Lemma fp_to_eigen_wf fp : Matrix_wf (fp_to_eigen fp).
Proof. apply NullaryExpr_wf. Qed.

Lemma coeff_fp_to_eigen fp i j :
  i < rows fp → j < columns fp →
  coeff (fp_to_eigen fp) i j = array fp !!! (i * columns fp + j).
Proof. intros. unfold fp_to_eigen. by rewrite coeff_NullaryExpr. Qed.

Lemma eigen_to_fp_rows st M : rows (eigen_to_fp st M) = m_rows M.
Proof. done. Qed.

Lemma eigen_to_fp_columns st M : columns (eigen_to_fp st M) = m_cols M.
Proof. done. Qed.

Lemma eigen_to_fp_wf st M : FP12_wf (eigen_to_fp st M).
Proof. unfold FP12_wf. simpl. by rewrite length_fmap, length_seq. Qed.

Lemma eigen_to_fp_array st M i j :
  i < m_rows M → j < m_cols M →
  array (eigen_to_fp st M) !!! (i * m_cols M + j) = coeff M i j.
Proof.
  intros Hi Hj. simpl.
  rewrite tabulate_lookup by (by apply rowmajor_lt).
  by rewrite rowmajor_row, rowmajor_col.
Qed.

Lemma cell_eigen_to_fp st M i j :
  i < m_rows M → j < m_cols M → cell (eigen_to_fp st M) i j = coeff M i j.
Proof. intros. unfold cell. rewrite eigen_to_fp_columns. by apply eigen_to_fp_array. Qed.

(** The result does not depend on what the slot held before. *)
Lemma eigen_to_fp_fresh st st' M : eigen_to_fp st M = eigen_to_fp st' M.
Proof. done. Qed.

Lemma fp_to_eigen_to_fp st M : Matrix_wf M → fp_to_eigen (eigen_to_fp st M) = M.
Proof.
  intros Hwf. symmetry. apply MatrixXd_ext; [done..|].
  intros i j Hi Hj. symmetry. by apply eigen_to_fp_array.
Qed.

Lemma eigen_to_fp_to_eigen st fp : FP12_wf fp → eigen_to_fp st (fp_to_eigen fp) = fp.
Proof.
  destruct fp as [r c a]. unfold FP12_wf. simpl. intros Hwf.
  unfold eigen_to_fp, FPX.get, Map_RowMajor_assign. simpl. f_equal.
  symmetry. apply tabulate_ext; [done|]. intros p Hp.
  assert (p mod c < c ∧ p / c < r) as [Hj Hi]
    by (apply offset_split; lia).
  rewrite coeff_fp_to_eigen by done. simpl. f_equal.
  rewrite (Nat.div_mod_eq p c) at 1. lia.
Qed.

(** C2: a matrix written to the output array and read back is the same
    matrix, and the matrix read from an array of [rows * columns] doubles has
    coefficient [(i, j)] equal to cell [i * columns + j] of the buffer. *)
Theorem layout_adapter_roundtrip (st : Statics) (M : MatrixXd) (fp : _FP12) :
  Matrix_wf M → FP12_wf fp →
  fp_to_eigen (eigen_to_fp st M) = M ∧
  m_rows (fp_to_eigen fp) = rows fp ∧
  m_cols (fp_to_eigen fp) = columns fp ∧
  ∀ i j, i < rows fp → j < columns fp →
    array fp !! (i * columns fp + j) = Some (coeff (fp_to_eigen fp) i j).
Proof.
  intros HM Hfp. split; [by apply fp_to_eigen_to_fp|].
  split; [done|]. split; [done|]. intros i j Hi Hj.
  rewrite coeff_fp_to_eigen by done.
  apply list_lookup_alt. split; [|done].
  rewrite Hfp. by apply rowmajor_lt.
Qed.

Lemma layout_adapter_roundtrip_witness :
  Matrix_wf (fp_to_eigen A_2x3) ∧ FP12_wf A_2x3 ∧
  fp_to_eigen (eigen_to_fp st_used (fp_to_eigen A_2x3)) = fp_to_eigen A_2x3 ∧
  array A_2x3 !! (1 * columns A_2x3 + 2) = Some (coeff (fp_to_eigen A_2x3) 1 2).
Proof.
  split; [reflexivity|]. split; [reflexivity|].
  destruct (layout_adapter_roundtrip st_used (fp_to_eigen A_2x3) A_2x3)
    as (Hback & _ & _ & Hcell); [reflexivity | reflexivity |].
  split; [exact Hback|]. apply Hcell; simpl; lia.
Defined.

(** ** Validation of the operands *)

Section Validation.

Variable st : Statics.
Variable operator_mul : MatrixXd → MatrixXd → MatrixXd.
Variable inverse : MatrixXd → MatrixXd.
Variable PartialPivLU_solve : MatrixXd → MatrixXd → MatrixXd.

Lemma xll_matrix_mul_eq pa pb :
  columns pa = rows pb →
  xll_matrix_mul st (nothrow2 operator_mul) pa pb
  = Some (eigen_to_fp st (operator_mul (fp_to_eigen pa) (fp_to_eigen pb))).
Proof.
  intros Heq. unfold xll_matrix_mul. simpl.
  by rewrite decide_False by (by intros []).
Qed.

Lemma xll_matrix_inv_eq pa :
  xll_matrix_inv st (nothrow inverse) pa
  = if decide (rows pa = columns pa)
    then Some (eigen_to_fp st (inverse (fp_to_eigen pa))) else None.
Proof.
  unfold xll_matrix_inv. simpl.
  destruct (decide (rows pa = columns pa)).
  - by rewrite decide_False by (by intros []).
  - by rewrite decide_True.
Qed.

(** C3: [xll_matrix_solve] returns the null array exactly when [A] is not
    square or [b] has another number of rows; in every other case, whatever
    the rank of [A], the solution computed from the LU factorisation is
    returned unchecked. *)
Theorem xll_matrix_solve_fails_iff (pa pb : _FP12) :
  (xll_matrix_solve st (nothrow2 PartialPivLU_solve) pa pb = None
   ↔ rows pa ≠ columns pa ∨ rows pa ≠ rows pb) ∧
  xll_matrix_solve st (nothrow2 PartialPivLU_solve) pa pb
  = if decide (rows pa = columns pa ∧ rows pa = rows pb)
    then Some (eigen_to_fp st (PartialPivLU_solve (fp_to_eigen pa) (fp_to_eigen pb)))
    else None.
Proof.
  unfold xll_matrix_solve. simpl.
  destruct (decide (rows pa ≠ columns pa ∨ rows pa ≠ rows pb)) as [Hbad|Hok].
  - split; [done|]. rewrite decide_False; [done|]. intros [??]. by destruct Hbad.
  - split; [split; [done|by intros ?]|].
    rewrite decide_True; [done|]. split.
    + destruct (decide (rows pa = columns pa)); [done|]. destruct Hok. by left.
    + destruct (decide (rows pa = rows pb)); [done|]. destruct Hok. by right.
Qed.

End Validation.

(** A singular system still yields an array, here one of NaNs. *)
Example solve_singular :
  singular (fp_to_eigen singular_2x2) = true ∧
  xll_matrix_solve st0 (nothrow2 Ref.solve) singular_2x2 b_2x1 = Some (fp 2 1 [nan; nan]).
Proof. split; reflexivity. Qed.

Example solve_3x3_4x1 : xll_matrix_solve st0 (nothrow2 Ref.solve) A_3x3 b_4x1 = None.
Proof. reflexivity. Qed.

Example solve_regular :
  xll_matrix_solve st_used (nothrow2 Ref.solve) A_2x2 b_2x1
  = Some (fp 2 1 [-0x1.999999999999ap-1; 0x1.3333333333333p-1]%float).
Proof. reflexivity. Qed.

(** ** Inverse *)

Lemma forallb_seq_ext (f g : nat → bool) (start n : nat) :
  (∀ i, start ≤ i < start + n → f i = g i) →
  forallb f (seq start n) = forallb g (seq start n).
Proof.
  revert start. induction n as [|n IH]; intros start Hfg; [done|].
  simpl. rewrite Hfg by lia. f_equal. apply IH. intros i Hi. apply Hfg. lia.
Qed.

(** Comparing within a tolerance only reads the shape and the coefficients:
    what the catalogue hands back for a kernel result [P] compares like [P]. *)
Lemma approx_eigen_to_fp st tol (P B : MatrixXd) :
  approx tol (fp_to_eigen (eigen_to_fp st P)) B = approx tol P B.
Proof.
  unfold approx. simpl. f_equal.
  apply forallb_seq_ext. intros i Hi. apply forallb_seq_ext. intros j Hj.
  rewrite coeff_fp_to_eigen by (simpl; lia).
  by rewrite eigen_to_fp_columns, eigen_to_fp_array by lia.
Qed.

(** A finite double is [a * 2^e] with [|a| < 2^53] and [e ≤ 971]. *)
Lemma digits2_pos_bound (m : positive) :
  (Z.pos m < 2 ^ Z.pos (SpecFloat.digits2_pos m))%Z.
Proof.
  induction m as [m IH|m IH|]; simpl; [| |done];
    rewrite Pos2Z.inj_succ, Z.pow_succ_r by lia; lia.
Qed.

Lemma Prim2SF_finite_bound (x : double) s m e :
  Prim2SF x = S754_finite s m e → (Z.pos m < 2 ^ 53 ∧ e ≤ 971)%Z.
Proof.
  intros Hx. pose proof (FloatAxioms.Prim2SF_valid x) as Hv. rewrite Hx in Hv.
  unfold SpecFloat.valid_binary, SpecFloat.bounded in Hv.
  apply andb_prop in Hv as [Hc He].
  unfold SpecFloat.canonical_mantissa, SpecFloat.fexp, SpecFloat.emin in Hc.
  apply Z.eqb_eq in Hc. apply Z.leb_le in He.
  unfold FloatOps.prec, FloatOps.emax in *. split; [|lia].
  pose proof (digits2_pos_bound m) as Hd.
  assert (Z.pos (SpecFloat.digits2_pos m) ≤ 53)%Z as Hle by lia.
  pose proof (Z.pow_le_mono_r 2 _ 53 ltac:(lia) Hle). lia.
Qed.

Lemma integer_value_bound (x : double) (z : Z) :
  integer_value x = Some z →
  ∃ a e, (z = a * 2 ^ e ∧ Z.abs a < 2 ^ 53 ∧ 0 ≤ e ≤ 971)%Z.
Proof.
  unfold integer_value. destruct (Prim2SF x) as [?| | |s m e] eqn:Hx; try done.
  - intros [= <-]. exists 0%Z, 0%Z. lia.
  - destruct (Prim2SF_finite_bound x s m e Hx) as [Hm He].
    set (a := if s then Z.neg m else Z.pos m).
    assert (Ha : Z.abs a = Z.pos m) by (unfold a; destruct s; lia).
    clearbody a. destruct (decide (0 ≤ e)%Z) as [Hpos|Hneg].
    + intros [= <-]. exists a, e. lia.
    + set (d := (2 ^ (- e))%Z).
      assert (0 < d)%Z as Hd by (apply Z.pow_pos_nonneg; lia).
      destruct (decide (Z.pos m mod d = 0)%Z) as [Hdiv|]; [|done].
      intros [= <-].
      apply Z.div_exact in Hdiv; [|lia].
      set (q := (Z.pos m / d)%Z) in *.
      assert (0 ≤ q)%Z as Hq by (apply Z.div_pos; lia).
      assert (a = q * d ∨ a = (- q) * d)%Z as [-> | ->] by lia.
      * exists q, 0%Z. rewrite Z.div_mul by lia. split; [lia|]. split; [nia|lia].
      * exists (- q)%Z, 0%Z. rewrite Z.div_mul by lia. split; [lia|].
        split; [nia|lia].
Qed.

(** C1, counterexample: for the singular matrix [[1 2] [2 4]] the inverse
    operation returns an array (of infinities under the reference kernel),
    not the null array; no kernel that returns can make it return null,
    since the result of [A.inverse()] is never inspected.  Nor is every
    invertible matrix inverted within a tolerance: the inverse of the 1×1
    matrix [2^-1074] is [2^1074], which no double equals; the reference
    kernel, like any LU-based inverse, divides 1 by the pivot, returns
    infinity, and the product with it is infinite. *)
Lemma inverse_of_singular_is_returned :
  singular (fp_to_eigen singular_2x2) = true ∧
  xll_matrix_inv st0 (nothrow Ref.inverse) singular_2x2
  = Some (fp 2 2 [neg_infinity; infinity; infinity; neg_infinity]) ∧
  (∀ st inverse, is_Some (xll_matrix_inv st (nothrow inverse) singular_2x2)) ∧
  singular (fp_to_eigen tiny_1x1) = false ∧
  dyadic (cell tiny_1x1 0 0) = Some (1, -1074)%Z ∧
  (∀ x : double, integer_value x ≠ Some (2 ^ 1074)%Z) ∧
  (xll_matrix_inv st0 (nothrow Ref.inverse) tiny_1x1
     ≫= xll_matrix_mul st0 (nothrow2 Ref.mul) tiny_1x1)
  = Some (fp 1 1 [infinity]).
Proof.
  split; [reflexivity|]. split; [reflexivity|]. split.
  { intros st inverse. rewrite xll_matrix_inv_eq. simpl. eauto. }
  split; [reflexivity|]. split; [reflexivity|]. split; [|reflexivity].
  intros x Hx. apply integer_value_bound in Hx as (a & e & Hz & Ha & He).
  assert (2 ^ e ≤ 2 ^ 971)%Z as Hpow by (apply Z.pow_le_mono_r; lia).
  assert (0 < 2 ^ e)%Z as Hpos by (apply Z.pow_pos_nonneg; lia).
  assert (Z.abs (a * 2 ^ e) < 2 ^ 53 * 2 ^ 971)%Z as Hlt
    by (rewrite Z.abs_mul, (Z.abs_eq (2 ^ e)) by lia; nia).
  rewrite <- Hz in Hlt. rewrite <- Z.pow_add_r in Hlt by lia.
  assert (2 ^ (53 + 971) < 2 ^ 1074)%Z by (apply Z.pow_lt_mono_r; lia).
  rewrite Z.abs_eq in Hlt by (apply Z.pow_nonneg; lia). lia.
Qed.

(** C1, amended: a non-square input yields the null array; a square input,
    singular or not, yields the kernel's [A.inverse()] unchecked.  When that
    is a well-formed matrix of the size of [A], multiplying [A] by the
    returned array through the catalogue gives the kernel's product
    [A * A.inverse()] cell for cell, so the product is the identity within a
    tolerance exactly when the kernel's product is. *)
Theorem xll_matrix_inv_square_only
    (st st' : Statics) (operator_mul : MatrixXd → MatrixXd → MatrixXd)
    (inverse : MatrixXd → MatrixXd) (pa : _FP12) :
  let A := fp_to_eigen pa in
  let P := operator_mul A (inverse A) in
  (rows pa ≠ columns pa → xll_matrix_inv st (nothrow inverse) pa = None) ∧
  (rows pa = columns pa →
     xll_matrix_inv st (nothrow inverse) pa = Some (eigen_to_fp st (inverse A))) ∧
  (rows pa = columns pa → Matrix_wf (inverse A) → m_rows (inverse A) = rows pa →
     ∃ pi pp,
       xll_matrix_inv st (nothrow inverse) pa = Some pi ∧
       fp_to_eigen pi = inverse A ∧
       xll_matrix_mul st' (nothrow2 operator_mul) pa pi = Some pp ∧
       rows pp = m_rows P ∧ columns pp = m_cols P ∧
       (∀ i j, i < m_rows P → j < m_cols P → cell pp i j = coeff P i j) ∧
       ∀ tol B, approx tol (fp_to_eigen pp) B = approx tol P B).
Proof.
  intros A P. rewrite xll_matrix_inv_eq. split; [|split].
  - intros Hns. by rewrite decide_False.
  - intros Hsq. by rewrite decide_True.
  - intros Hsq Hwf Hrows. rewrite decide_True by done.
    exists (eigen_to_fp st (inverse A)), (eigen_to_fp st' P).
    split; [done|]. split; [by apply fp_to_eigen_to_fp|]. split.
    + rewrite xll_matrix_mul_eq.
      * by rewrite fp_to_eigen_to_fp.
      * rewrite eigen_to_fp_rows, Hrows. by symmetry.
    + split; [done|]. split; [done|]. split.
      * intros i j Hi Hj. by apply cell_eigen_to_fp.
      * intros tol B. apply approx_eigen_to_fp.
Qed.

Lemma xll_matrix_inv_square_only_witness :
  rows A_2x2 = columns A_2x2 ∧
  Matrix_wf (Ref.inverse (fp_to_eigen A_2x2)) ∧
  m_rows (Ref.inverse (fp_to_eigen A_2x2)) = rows A_2x2 ∧
  xll_matrix_inv st_used (nothrow Ref.inverse) A_2x2
  = Some (fp 2 2 [0x1.3333333333334p-1; -0x1.6666666666667p-1;
                  -0x1.999999999999ap-3; 0x1.999999999999ap-2]%float) ∧
  approx 0x1p-50%float
    (Ref.mul (fp_to_eigen A_2x2) (Ref.inverse (fp_to_eigen A_2x2)))
    (Identity 2 2) = true ∧
  ∃ pi pp,
    xll_matrix_inv st_used (nothrow Ref.inverse) A_2x2 = Some pi ∧
    xll_matrix_mul st0 (nothrow2 Ref.mul) A_2x2 pi = Some pp ∧
    approx 0x1p-50%float (fp_to_eigen pp) (Identity 2 2) = true.
Proof.
  split; [reflexivity|]. split; [reflexivity|]. split; [reflexivity|].
  split; [reflexivity|]. split; [reflexivity|].
  destruct (xll_matrix_inv_square_only st_used st0 Ref.mul Ref.inverse A_2x2)
    as (_ & _ & Hprod).
  destruct (Hprod eq_refl eq_refl eq_refl)
    as (pi & pp & Hpi & _ & Hpp & _ & _ & _ & Happrox).
  exists pi, pp. split; [exact Hpi|]. split; [exact Hpp|].
  rewrite Happrox. reflexivity.
Defined.

Example inverse_2x3 : xll_matrix_inv st_used (nothrow Ref.inverse) A_2x3 = None.
Proof. reflexivity. Qed.

(** ** Cholesky *)

Lemma triangularView_Lower_wf M : Matrix_wf (triangularView_Lower M).
Proof. apply NullaryExpr_wf. Qed.

Lemma triangularView_Lower_lower M : lower_triangular (triangularView_Lower M).
Proof.
  intros i j Hi Hj Hij. unfold triangularView_Lower in *. simpl in *.
  rewrite coeff_NullaryExpr by done. rewrite decide_False; [done|lia].
Qed.

Lemma coeff_triangularView_Lower M i j :
  i < m_rows M → j < m_cols M → j ≤ i →
  coeff (triangularView_Lower M) i j = coeff M i j.
Proof.
  intros Hi Hj Hij. unfold triangularView_Lower.
  rewrite coeff_NullaryExpr by done. by rewrite decide_True.
Qed.

Lemma transpose_wf M : Matrix_wf (transpose M).
Proof. apply NullaryExpr_wf. Qed.

Lemma xll_matrix_transpose_eq st pa :
  xll_matrix_transpose st pa = Some (eigen_to_fp st (transpose (fp_to_eigen pa))).
Proof. done. Qed.

(** C4, counterexample: [[1 b] [b c]] with [b = 1 + 15 * 2^-30] and [c]
    the double next above [b * b] is symmetric positive definite, exactly;
    yet [b * b] rounds up to [c], the second pivot [c - b * b] of the
    binary64 factorisation is [0], the pivot test [x <= 0] (which Eigen's
    unblocked LLT applies as well) reports a numerical issue and the
    operation returns the null array. *)
Lemma cholesky_of_spd_fails :
  SPD (fp_to_eigen spd_rounded_2x2) = true ∧
  (cell spd_rounded_2x2 0 1 * cell spd_rounded_2x2 1 0)%float
  = cell spd_rounded_2x2 1 1 ∧
  info (Ref.llt (fp_to_eigen spd_rounded_2x2)) = NumericalIssue ∧
  xll_matrix_cholesky st0 (nothrow Ref.llt) spd_rounded_2x2 = None.
Proof. repeat split. Qed.

(** C4, amended: [xll_matrix_cholesky] returns the null array for a
    non-square input and for a square input on which the factorisation does
    not report success.  On every other input it returns the lower triangle
    [L] of the factor storage, which is lower triangular, and multiplying
    that array by its transpose through the catalogue gives the kernel's
    product [L * Lᵀ], so the product is [A] within a tolerance exactly when
    the kernel's product is. *)
Theorem xll_matrix_cholesky_spec
    (st st' st'' : Statics) (operator_mul : MatrixXd → MatrixXd → MatrixXd)
    (LLT : MatrixXd → LLT_t) (pa : _FP12) :
  let A := fp_to_eigen pa in
  let L := matrixL (LLT A) in
  let P := operator_mul L (transpose L) in
  (rows pa ≠ columns pa → xll_matrix_cholesky st (nothrow LLT) pa = None) ∧
  (rows pa = columns pa → info (LLT A) ≠ Success →
     xll_matrix_cholesky st (nothrow LLT) pa = None) ∧
  (rows pa = columns pa → info (LLT A) = Success →
     ∃ pl plt pp,
       xll_matrix_cholesky st (nothrow LLT) pa = Some pl ∧
       fp_to_eigen pl = L ∧
       lower_triangular (fp_to_eigen pl) ∧
       (∀ i j, i < m_rows L → j < m_cols L → j ≤ i →
          cell pl i j = coeff (matrixLLT (LLT A)) i j) ∧
       xll_matrix_transpose st' pl = Some plt ∧
       xll_matrix_mul st'' (nothrow2 operator_mul) pl plt = Some pp ∧
       (∀ i j, i < m_rows P → j < m_cols P → cell pp i j = coeff P i j) ∧
       ∀ tol B, approx tol (fp_to_eigen pp) B = approx tol P B).
Proof.
  intros A L P. split; [|split].
  - intros Hns. unfold xll_matrix_cholesky. simpl. by rewrite decide_True.
  - intros Hsq Hbad. unfold xll_matrix_cholesky. simpl.
    rewrite decide_False by (by intros []).
    fold A. by rewrite decide_True.
  - intros Hsq Hok.
    assert (HL : fp_to_eigen (eigen_to_fp st L) = L)
      by apply fp_to_eigen_to_fp, triangularView_Lower_wf.
    exists (eigen_to_fp st L), (eigen_to_fp st' (transpose L)), (eigen_to_fp st'' P).
    split.
    { unfold xll_matrix_cholesky. simpl.
      rewrite decide_False by (by intros []).
      fold A. rewrite decide_False by (by intros []). done. }
    split; [exact HL|]. rewrite HL.
    split; [apply triangularView_Lower_lower|]. split.
    { intros i j Hi Hj Hij. rewrite cell_eigen_to_fp by done.
      by apply coeff_triangularView_Lower. }
    split; [by rewrite xll_matrix_transpose_eq, HL|]. split.
    { rewrite xll_matrix_mul_eq by done.
      by rewrite HL, (fp_to_eigen_to_fp _ _ (transpose_wf L)). }
    split.
    + intros i j Hi Hj. by apply cell_eigen_to_fp.
    + intros tol B. apply approx_eigen_to_fp.
Qed.

Lemma xll_matrix_cholesky_spec_witness :
  SPD (fp_to_eigen spd_2x2) = true ∧
  rows spd_2x2 = columns spd_2x2 ∧
  info (Ref.llt (fp_to_eigen spd_2x2)) = Success ∧
  xll_matrix_cholesky st_used (nothrow Ref.llt) spd_2x2
  = Some (fp 2 2 [2; 0; 1; 0x1.6a09e667f3bcdp+0]%float) ∧
  ∃ pl plt pp,
    xll_matrix_cholesky st_used (nothrow Ref.llt) spd_2x2 = Some pl ∧
    lower_triangular (fp_to_eigen pl) ∧
    xll_matrix_transpose st0 pl = Some plt ∧
    xll_matrix_mul st0 (nothrow2 Ref.mul) pl plt = Some pp ∧
    approx 0x1p-50%float (fp_to_eigen pp) (fp_to_eigen spd_2x2) = true.
Proof.
  split; [reflexivity|]. split; [reflexivity|]. split; [reflexivity|].
  split; [reflexivity|].
  destruct (xll_matrix_cholesky_spec st_used st0 st0 Ref.mul Ref.llt spd_2x2)
    as (_ & _ & Hok).
  destruct (Hok eq_refl eq_refl)
    as (pl & plt & pp & Hpl & _ & Hlow & _ & Hplt & Hpp & _ & Happrox).
  exists pl, plt, pp. split; [exact Hpl|]. split; [exact Hlow|].
  split; [exact Hplt|]. split; [exact Hpp|].
  rewrite Happrox. reflexivity.
Defined.

Example cholesky_indefinite :
  xll_matrix_cholesky st_used (nothrow Ref.llt) indefinite_2x2 = None.
Proof. reflexivity. Qed.

Example cholesky_2x3 : xll_matrix_cholesky st_used (nothrow Ref.llt) A_2x3 = None.
Proof. reflexivity. Qed.

(** ** Loops that fill the output slot *)

Lemma for_S {St} (n : nat) (body : nat → St → St) (s : St) :
  for_ (S n) body s = body n (for_ n body s).
Proof. unfold for_. by rewrite seq_S, foldl_snoc. Qed.

Lemma for_ext {St} (n : nat) (body body' : nat → St → St) (s : St) :
  (∀ i s, i < n → body i s = body' i s) → for_ n body s = for_ n body' s.
Proof.
  intros Hb. induction n as [|n IH]; [done|].
  rewrite !for_S, IH by (intros; apply Hb; lia). apply Hb. lia.
Qed.

Lemma rowmajor_inj (w i j i' j' : nat) :
  j < w → j' < w → i * w + j = i' * w + j' → i = i' ∧ j = j'.
Proof.
  intros Hj Hj' Heq. split.
  - rewrite <- (rowmajor_row w i j), <- (rowmajor_row w i' j') by done. by rewrite Heq.
  - rewrite <- (rowmajor_col w i j), <- (rowmajor_col w i' j') by done. by rewrite Heq.
Qed.

Lemma FPX_resize_length r c x : length (array (FPX.resize r c x)) = r * c.
Proof.
  simpl. rewrite length_take, length_app, length_replicate. lia.
Qed.

Lemma cell_set x i0 j0 v i j :
  j0 < columns x → j < columns x → i0 * columns x + j0 < length (array x) →
  cell (FPX.set i0 j0 v x) i j
  = if decide (i = i0 ∧ j = j0) then v else cell x i j.
Proof.
  intros Hj0 Hj Hlen. unfold cell, FPX.set, FPX.set_index. simpl.
  rewrite list_lookup_total_insert.
  destruct (decide (i = i0 ∧ j = j0)) as [[-> ->]|Hne].
  - by rewrite decide_True.
  - rewrite decide_False; [done|]. intros [Heq _]. apply Hne.
    by destruct (rowmajor_inj (columns x) i0 j0 i j Hj0 Hj Heq).
Qed.

Lemma extent_set i j v x : extent (FPX.set i j v x) = extent x.
Proof. unfold extent. simpl. by rewrite length_insert. Qed.

Lemma extent_set_index i v x : extent (FPX.set_index i v x) = extent x.
Proof. unfold extent. simpl. by rewrite length_insert. Qed.

(** One row of writes: [for j < b: x(i0, j) = g j]. *)
Lemma write_row (i0 b : nat) (g : nat → double) (x : _FP12) :
  b ≤ columns x → (i0 + 1) * columns x ≤ length (array x) →
  extent (for_ b (λ j, FPX.set i0 j (g j)) x) = extent x ∧
  ∀ i j, j < columns x →
    cell (for_ b (λ j, FPX.set i0 j (g j)) x) i j
    = if decide (i = i0 ∧ j < b) then g j else cell x i j.
Proof.
  intros Hb Hlen. induction b as [|n IH].
  - split; [done|]. intros i j Hj. rewrite decide_False; [done|lia].
  - destruct IH as [Hext IH]; [lia|]. rewrite for_S.
    set (s := for_ n _ x) in *.
    rewrite extent_set. split; [done|]. intros i j Hj.
    injection Hext as Hr Hc Hl.
    rewrite cell_set by (rewrite ?Hc, ?Hl; nia).
    rewrite IH by done.
    destruct (decide (i = i0 ∧ j = n)) as [[-> ->]|Hne].
    + by rewrite decide_True by lia.
    + destruct (decide (i = i0 ∧ j < n)) as [[-> ?]|?].
      * by rewrite decide_True by lia.
      * rewrite decide_False; [done|]. intros [-> ?]. apply Hne. split; [done|lia].
Qed.

(** A block of writes: [for i < a: for j < b: x(off + i, j) = f i j]. *)
Lemma write_block (off a b : nat) (f : nat → nat → double) (x : _FP12) :
  b ≤ columns x → (off + a) * columns x ≤ length (array x) →
  extent (for_ a (λ i, for_ b (λ j, FPX.set (off + i) j (f i j))) x) = extent x ∧
  ∀ i j, j < columns x →
    cell (for_ a (λ i, for_ b (λ j, FPX.set (off + i) j (f i j))) x) i j
    = if decide (off ≤ i < off + a ∧ j < b) then f (i - off) j else cell x i j.
Proof.
  intros Hb Hlen. induction a as [|n IH].
  - split; [done|]. intros i j Hj. rewrite decide_False; [done|lia].
  - destruct IH as [Hext IH]; [lia|]. rewrite for_S.
    set (s := for_ n _ x) in *.
    pose proof Hext as Hext'. injection Hext' as Hr Hc Hl.
    destruct (write_row (off + n) b (f n) s) as [Hext2 Hrow];
      [lia | rewrite Hc, Hl; nia |].
    split; [by rewrite Hext2|]. intros i j Hj.
    rewrite Hrow by lia. rewrite IH by done.
    destruct (decide (i = off + n ∧ j < b)) as [[-> ?]|Hne].
    + rewrite decide_True by lia. f_equal. lia.
    + destruct (decide (off ≤ i < off + n ∧ j < b)) as [[??]|?].
      * by rewrite decide_True by lia.
      * rewrite decide_False; [done|]. intros [??]. apply Hne. split; [lia|done].
Qed.

(** [vector_to_fp] stores the vector as one column, whatever the slot held. *)
Lemma vector_to_fp_eq st vec :
  vector_to_fp st vec = {| rows := length vec; columns := 1; array := vec |}.
Proof.
  unfold vector_to_fp, FPX.get.
  set (x := FPX.resize (length vec) 1 (vector_to_fp_result st)).
  assert (Hlen : length (array x) = length vec)
    by (unfold x; rewrite FPX_resize_length; lia).
  assert (Hcol : columns x = 1) by done.
  destruct (write_block 0 (length vec) 1 (λ i _, vec !!! i) x) as [Hext Hcell];
    [lia | lia |].
  rewrite Hcol in Hcell. unfold extent in Hext. rewrite Hcol, Hlen in Hext.
  assert (Hrow : rows x = length vec) by done. rewrite Hrow in Hext.
  set (x' := for_ (length vec) _ x) in *.
  destruct x' as [r c a]. injection Hext as -> -> Ha. f_equal.
  apply list_eq_same_length with (length vec); [done | lia |].
  intros i u v Hi Hu Hv.
  rewrite <- (list_lookup_total_correct _ _ _ Hu).
  rewrite <- (list_lookup_total_correct _ _ _ Hv).
  specialize (Hcell i 0). unfold cell in Hcell. simpl in Hcell.
  rewrite decide_True in Hcell by lia.
  replace (i * 1 + 0) with i in Hcell by lia.
  replace (i - 0) with i in Hcell by lia. apply Hcell. lia.
Qed.

Lemma tabulate_congr {A} `{Inhabited A} (f g : nat → A) (n : nat) :
  (∀ p, p < n → f p = g p) → f <$> seq 0 n = g <$> seq 0 n.
Proof.
  intros Hfg. apply tabulate_ext; [by rewrite length_fmap, length_seq|].
  intros p Hp. rewrite tabulate_lookup by done. by apply Hfg.
Qed.

(** ** Diagonal *)

(** C7: a one-column input, the 1×1 case included, yields the [n × n]
    matrix carrying that column on its diagonal and zeros elsewhere; an
    input with more columns yields its diagonal as a column vector. *)
Theorem xll_matrix_diag_spec (st : Statics) (pa : _FP12) :
  (columns pa = 1 →
     ∃ r, xll_matrix_diag st pa = Some r ∧
          rows r = rows pa ∧ columns r = rows pa ∧ FP12_wf r ∧
          ∀ i j, i < rows pa → j < rows pa →
            cell r i j = if decide (i = j) then array pa !!! i else 0%float) ∧
  (1 < columns pa →
     xll_matrix_diag st pa
     = Some {| rows := rows pa `min` columns pa; columns := 1;
               array := (λ i, cell pa i i) <$> seq 0 (rows pa `min` columns pa) |}).
Proof.
  split.
  - intros Hcol. unfold xll_matrix_diag. simpl. rewrite decide_True by done.
    set (A := fp_to_eigen pa).
    assert (Hlen : length (col A 0) = rows pa)
      by (unfold col; by rewrite length_fmap, length_seq).
    eexists. split; [done|].
    rewrite eigen_to_fp_rows, eigen_to_fp_columns. simpl. rewrite Hlen.
    split; [done|]. split; [done|]. split; [apply eigen_to_fp_wf|].
    intros i j Hi Hj.
    rewrite cell_eigen_to_fp by (simpl; lia).
    unfold asDiagonal. rewrite coeff_NullaryExpr by lia.
    case_decide; [|done]. unfold col. rewrite tabulate_lookup by done.
    unfold A. rewrite coeff_fp_to_eigen by lia. f_equal. lia.
  - intros Hcol. unfold xll_matrix_diag. simpl.
    rewrite decide_False by lia. rewrite vector_to_fp_eq.
    unfold diagonal. rewrite length_fmap, length_seq. simpl.
    do 2 f_equal. apply tabulate_congr. intros p Hp.
    by rewrite coeff_fp_to_eigen by lia.
Qed.

Example diag_of_column :
  xll_matrix_diag st_used column_3 = Some (fp 3 3 [5; 0; 0; 0; 6; 0; 0; 0; 7]%float).
Proof. reflexivity. Qed.

Example diag_of_1x1 : xll_matrix_diag st_used one_1x1 = Some (fp 1 1 [9]%float).
Proof. reflexivity. Qed.

Example diag_of_square :
  xll_matrix_diag st_used A_3x3 = Some (fp 3 1 [2; 3; 4]%float).
Proof. reflexivity. Qed.

Example diag_of_wide :
  xll_matrix_diag st_used A_2x3 = Some (fp 2 1 [1; 5]%float).
Proof. reflexivity. Qed.

(** ** Generators *)

Example static_cast_int_values :
  static_cast_int 3.5 = 3%Z ∧ static_cast_int 10000.5 = 10000%Z ∧
  static_cast_int 0.5 = 0%Z ∧ static_cast_int (-0.5) = 0%Z ∧
  static_cast_int (-3.5) = (-3)%Z ∧ static_cast_int 10001 = 10001%Z ∧
  static_cast_int 0x1p40 = INT_MIN ∧ static_cast_int nan = INT_MIN.
Proof. repeat split. Qed.

(** C8: [xll_matrix_identity] and [xll_matrix_zeros] return the null array
    whenever a truncated dimension lies outside (0, 10000]; otherwise they
    return the [n × n] matrix with ones on the diagonal and zeros elsewhere,
    respectively the [m × n] matrix of zeros. *)
Theorem generators_bounded (st : Statics) (m n : double) :
  let rows_ := static_cast_int m in
  let dim := static_cast_int n in
  (¬ valid_dim dim → xll_matrix_identity st n = None) ∧
  (valid_dim dim →
     ∃ r, xll_matrix_identity st n = Some r ∧
          rows r = Z.to_nat dim ∧ columns r = Z.to_nat dim ∧ FP12_wf r ∧
          ∀ i j, i < Z.to_nat dim → j < Z.to_nat dim →
            cell r i j = if decide (i = j) then 1%float else 0%float) ∧
  (¬ (valid_dim rows_ ∧ valid_dim dim) → xll_matrix_zeros st m n = None) ∧
  (valid_dim rows_ → valid_dim dim →
     ∃ r, xll_matrix_zeros st m n = Some r ∧
          rows r = Z.to_nat rows_ ∧ columns r = Z.to_nat dim ∧ FP12_wf r ∧
          ∀ i j, i < Z.to_nat rows_ → j < Z.to_nat dim → cell r i j = 0%float).
Proof.
  intros rows_ dim. unfold valid_dim.
  split; [|split; [|split]].
  - intros Hbad. unfold xll_matrix_identity. fold dim.
    rewrite decide_True; [done|lia].
  - intros Hok. unfold xll_matrix_identity. fold dim.
    rewrite decide_False by lia. eexists. split; [done|].
    rewrite eigen_to_fp_rows, eigen_to_fp_columns. simpl.
    split; [done|]. split; [done|]. split; [apply eigen_to_fp_wf|].
    intros i j Hi Hj. rewrite cell_eigen_to_fp by done.
    unfold Identity. by rewrite coeff_NullaryExpr.
  - intros Hbad. unfold xll_matrix_zeros. fold rows_ dim.
    rewrite decide_True; [done|lia].
  - intros Hr Hc. unfold xll_matrix_zeros. fold rows_ dim.
    rewrite decide_False by lia. eexists. split; [done|].
    rewrite eigen_to_fp_rows, eigen_to_fp_columns. simpl.
    split; [done|]. split; [done|]. split; [apply eigen_to_fp_wf|].
    intros i j Hi Hj. rewrite cell_eigen_to_fp by done.
    unfold Zero. by rewrite coeff_NullaryExpr.
Qed.

Example identity_0 : xll_matrix_identity st_used 0 = None.
Proof. reflexivity. Qed.

Example identity_10001 : xll_matrix_identity st_used 10001 = None.
Proof. reflexivity. Qed.

Example identity_negative : xll_matrix_identity st_used (-2) = None.
Proof. reflexivity. Qed.

Example identity_nan : xll_matrix_identity st_used nan = None.
Proof. reflexivity. Qed.

Example zeros_0_5 : xll_matrix_zeros st_used 0 5 = None.
Proof. reflexivity. Qed.

Example identity_3 :
  xll_matrix_identity st_used 3 = Some (fp 3 3 [1; 0; 0; 0; 1; 0; 0; 0; 1]%float).
Proof. reflexivity. Qed.

Example identity_truncates :
  xll_matrix_identity st_used 2.5 = Some (fp 2 2 [1; 0; 0; 1]%float).
Proof. reflexivity. Qed.

Example zeros_2_3 :
  xll_matrix_zeros st_used 2 3 = Some (fp 2 3 [0; 0; 0; 0; 0; 0]%float).
Proof. reflexivity. Qed.

(** ** QR *)

(** C10: [xll_matrix_qr] performs no dimension check and always returns an
    array; when the kernel's factor storage has the shape of the input, the
    result has that shape too and is the storage with every entry below the
    main diagonal replaced by zero. *)
Theorem xll_matrix_qr_spec
    (st : Statics) (HouseholderQR_matrixQR : MatrixXd → MatrixXd) (pa : _FP12) :
  let QR := HouseholderQR_matrixQR (fp_to_eigen pa) in
  is_Some (xll_matrix_qr st (nothrow HouseholderQR_matrixQR) pa) ∧
  (m_rows QR = rows pa → m_cols QR = columns pa →
   ∃ r, xll_matrix_qr st (nothrow HouseholderQR_matrixQR) pa = Some r ∧
        rows r = rows pa ∧ columns r = columns pa ∧ FP12_wf r ∧
        upper_triangular (fp_to_eigen r) ∧
        ∀ i j, i < rows pa → j < columns pa →
          cell r i j = if decide (i ≤ j) then coeff QR i j else 0%float).
Proof.
  intros QR. split; [by eexists|]. intros Hr Hc. unfold QR in *. clear QR.
  unfold xll_matrix_qr. simpl. eexists. split; [done|].
  rewrite eigen_to_fp_rows, eigen_to_fp_columns. simpl.
  split; [done|]. split; [done|]. split; [apply eigen_to_fp_wf|]. split.
  - rewrite fp_to_eigen_to_fp by apply NullaryExpr_wf.
    intros i j Hi Hj Hij. unfold triangularView_Upper in *. simpl in *.
    rewrite coeff_NullaryExpr by done. rewrite decide_False; [done|lia].
  - intros i j Hi Hj. rewrite cell_eigen_to_fp by (simpl; lia).
    unfold triangularView_Upper. rewrite coeff_NullaryExpr by lia. done.
Qed.

Lemma xll_matrix_qr_spec_witness :
  m_rows (Ref.qr_of_upper (fp_to_eigen upper_3x2)) = rows upper_3x2 ∧
  m_cols (Ref.qr_of_upper (fp_to_eigen upper_3x2)) = columns upper_3x2 ∧
  ∃ r, xll_matrix_qr st_used (nothrow Ref.qr_of_upper) upper_3x2 = Some r ∧
       rows r = 3 ∧ columns r = 2 ∧ upper_triangular (fp_to_eigen r).
Proof.
  split; [reflexivity|]. split; [reflexivity|].
  destruct (xll_matrix_qr_spec st_used Ref.qr_of_upper upper_3x2) as [_ H].
  destruct (H eq_refl eq_refl) as (r & Hr & Hrows & Hcols & _ & Hup & _).
  exists r. repeat split; assumption.
Defined.

Example qr_tall :
  xll_matrix_qr st_used (nothrow Ref.qr_of_upper) upper_3x2
  = Some (fp 3 2 [1; 2; 0; 3; 0; 0]%float).
Proof. reflexivity. Qed.

(** Entries below the diagonal are dropped even when the storage holds
    Householder vectors there. *)
Example qr_drops_lower_part :
  xll_matrix_qr st_used (nothrow (λ A, A)) A_3x2 = Some (fp 3 2 [1; 2; 0; 4; 0; 0]%float).
Proof. reflexivity. Qed.

(** ** Full SVD *)

Lemma extent_eq x r c n :
  extent x = (r, c, n) → rows x = r ∧ columns x = c ∧ length (array x) = n.
Proof. unfold extent. intros [= -> -> ->]. done. Qed.

(** [int] arithmetic agrees with the integers as long as the result is an
    [int]. *)
Lemma int_wrap_small (z : Z) : (INT_MIN ≤ z ≤ INT_MAX)%Z → int_wrap z = z.
Proof.
  unfold int_wrap, INT_MIN, INT_MAX. intros Hz.
  rewrite Z.mod_small by lia. lia.
Qed.

Example int_arithmetic_values :
  int_add INT_MAX 1 = INT_MIN ∧ int_mul 65536 65536 = 0%Z ∧
  int_mul 46344 46342 = (-2147293648)%Z ∧ int_wrap (-5) = (-5)%Z ∧
  Index_to_int 4096 = 4096%Z.
Proof. repeat split. Qed.

Lemma int_wrap_le (z : Z) : (0 ≤ z)%Z → (int_wrap z ≤ z)%Z.
Proof.
  unfold int_wrap, INT_MIN. intros Hz.
  pose proof (Z.mod_le (z - -2147483648) (2 ^ 32)). lia.
Qed.

Lemma Index_to_int_small (n : nat) :
  (Z.of_nat n ≤ INT_MAX)%Z → Index_to_int n = Z.of_nat n.
Proof. unfold INT_MAX. intros Hn. apply int_wrap_small. unfold INT_MIN, INT_MAX. lia. Qed.

Lemma int_add_small (a b : nat) :
  (Z.of_nat (a + b) ≤ INT_MAX)%Z →
  int_add (Z.of_nat a) (Z.of_nat b) = Z.of_nat (a + b).
Proof.
  unfold INT_MAX. intros Hab. unfold int_add.
  rewrite int_wrap_small by (unfold INT_MIN, INT_MAX; lia). lia.
Qed.

(** [x.resize(r, c)] keeps the cells the buffer already had. *)
Lemma FPX_resize_kept r c x p :
  p < length (array x) → p < r * c →
  array (FPX.resize r c x) !!! p = array x !!! p.
Proof.
  intros Hp Hrc. simpl.
  rewrite lookup_total_take, decide_True by done. by rewrite lookup_total_app_l.
Qed.

(** The zero-fill loop run for [n] steps clears the first [n] cells and
    leaves the others as they were. *)
Lemma zero_fill_prefix (n : nat) (x : _FP12) :
  n ≤ length (array x) →
  extent (for_ n (λ i, FPX.set_index i 0%float) x) = extent x ∧
  ∀ p, array (for_ n (λ i, FPX.set_index i 0%float) x) !!! p
       = if decide (p < n) then 0%float else array x !!! p.
Proof.
  intros Hn. induction n as [|n IH].
  - split; [done|]. intros p. by rewrite decide_False by lia.
  - destruct IH as [Hext IH]; [lia|]. rewrite for_S.
    set (s := for_ n _ x) in *.
    rewrite extent_set_index. split; [done|]. intros p.
    injection Hext as Hr Hc Hl. simpl.
    rewrite list_lookup_total_insert, IH.
    repeat case_decide; first [done | lia].
Qed.

(** The four loops of [xll_matrix_svd_full] on a slot resized to [R × W],
    with a zero-fill loop of [z] steps: the slot keeps its extent, the three
    blocks (which occupy disjoint rows) hold their entries, and a cell
    outside the blocks is zero if the zero-fill loop reached it and is left
    as [resize] delivered it otherwise. *)
Lemma svd_full_slot (x : _FP12) (U S Vt : nat → nat → double) (m n k R W z : nat) :
  m + k + k ≤ R → k ≤ W → n ≤ W → z ≤ R * W →
  let x0 := FPX.resize R W x in
  let x1 := for_ z (λ i, FPX.set_index i 0%float) x0 in
  let x2 := for_ m (λ i, for_ k (λ j, FPX.set i j (U i j))) x1 in
  let x3 := for_ k (λ i, for_ k (λ j, FPX.set (m + i) j (S i j))) x2 in
  let x4 := for_ k (λ i, for_ n (λ j, FPX.set (m + k + i) j (Vt i j))) x3 in
  extent x4 = (R, W, R * W) ∧
  ∀ i j, j < W →
    cell x4 i j =
      if decide (i < m ∧ j < k) then U i j
      else if decide (m ≤ i < m + k ∧ j < k) then S (i - m) j
      else if decide (m + k ≤ i < m + k + k ∧ j < n) then Vt (i - (m + k)) j
      else if decide (i * W + j < z) then 0%float
      else cell x0 i j.
Proof.
  intros HR HkW HnW Hz x0 x1 x2 x3 x4.
  assert (E0 : extent x0 = (R, W, R * W))
    by (unfold extent, x0; rewrite FPX_resize_length; done).
  destruct (extent_eq _ _ _ _ E0) as (R0 & W0 & L0).
  assert (H1 : extent x1 = (R, W, R * W) ∧ ∀ i j,
            cell x1 i j = if decide (i * W + j < z) then 0%float else cell x0 i j).
  { destruct (zero_fill_prefix z x0) as [E Hp]; [lia|].
    split; [unfold x1; by rewrite E|]. intros i j.
    unfold cell at 1. unfold x1. rewrite Hp.
    rewrite (proj1 (proj2 (extent_eq _ _ _ _ (eq_trans E E0)))).
    unfold cell. by rewrite W0. }
  destruct H1 as [E1 C1]. destruct (extent_eq _ _ _ _ E1) as (R1 & W1 & L1).
  assert (H2 : extent x2 = (R, W, R * W) ∧ ∀ i j, j < W →
            cell x2 i j = if decide (i < m ∧ j < k) then U i j else cell x1 i j).
  { destruct (write_block 0 m k U x1) as [E C];
      [lia | rewrite W1, L1; nia |].
    split; [unfold x2; simpl in E; by rewrite E|]. intros i j Hj. unfold x2. simpl in C.
    rewrite C by lia. destruct (decide (i < m ∧ j < k)).
    - rewrite decide_True by lia. f_equal. lia.
    - rewrite decide_False by lia. done. }
  destruct H2 as [E2 C2]. destruct (extent_eq _ _ _ _ E2) as (R2 & W2 & L2).
  assert (H3 : extent x3 = (R, W, R * W) ∧ ∀ i j, j < W →
            cell x3 i j = if decide (m ≤ i < m + k ∧ j < k)
                          then S (i - m) j else cell x2 i j).
  { destruct (write_block m k k S x2) as [E C];
      [lia | rewrite W2, L2; nia |].
    split; [unfold x3; by rewrite E|]. intros i j Hj. unfold x3.
    rewrite C by lia. done. }
  destruct H3 as [E3 C3]. destruct (extent_eq _ _ _ _ E3) as (R3 & W3 & L3).
  assert (H4 : extent x4 = (R, W, R * W) ∧ ∀ i j, j < W →
            cell x4 i j = if decide (m + k ≤ i < m + k + k ∧ j < n)
                          then Vt (i - (m + k)) j else cell x3 i j).
  { destruct (write_block (m + k) k n Vt x3) as [E C];
      [lia | rewrite W3, L3; nia |].
    split; [unfold x4; by rewrite E|]. intros i j Hj. unfold x4.
    rewrite C by lia. done. }
  destruct H4 as [E4 C4].
  clearbody x4 x3 x2 x1 x0.
  split; [done|]. intros i j Hj.
  rewrite C4, C3, C2, C1 by done.
  repeat case_decide; first [done | lia].
Qed.

(** The cells of what [xll_matrix_svd_full] returns, for a kernel result with
    [k] singular values, as long as the row count [m + 2k] and the width
    [max(m, n, k)] are [int]s: [pad] is the content of a cell outside the
    three blocks. *)
Lemma xll_matrix_svd_full_cells
    (st : Statics) (JacobiSVD : MatrixXd → SVD_t) (pa : _FP12) :
  let svd := JacobiSVD (fp_to_eigen pa) in
  let m := rows pa in
  let n := columns pa in
  let k := length (singularValues svd) in
  let W := (m `max` n) `max` k in
  let R := m + k + k in
  let pad i j :=
    if decide (i * W + j < Z.to_nat (int_mul (Z.of_nat R) (Z.of_nat W)))
    then 0%float else cell (FPX.resize R W (svd_full_result st)) i j in
  (Z.of_nat R ≤ INT_MAX)%Z → (Z.of_nat W ≤ INT_MAX)%Z →
  ∃ r, xll_matrix_svd_full st (nothrow JacobiSVD) pa = Some r ∧
       extent r = (R, W, R * W) ∧
       ∀ i j, j < W →
         cell r i j =
           if decide (i < m ∧ j < k) then coeff (matrixU svd) i j
           else if decide (m ≤ i < m + k ∧ j < k)
             then coeff (asDiagonal (singularValues svd)) (i - m) j
           else if decide (m + k ≤ i < m + k + k ∧ j < n)
             then coeff (transpose (matrixV svd)) (i - (m + k)) j
           else pad i j.
Proof.
  intros svd m n k W R pad HR HW.
  unfold xll_matrix_svd_full, FPX.get. run_try. fold svd.
  simpl m_rows. simpl m_cols. fold m n k.
  rewrite !Index_to_int_small by (unfold INT_MAX in *; lia).
  rewrite <- 2!Nat2Z.inj_max. fold W.
  rewrite (int_add_small m k), (int_add_small (m + k) k)
    by (unfold INT_MAX in *; lia).
  fold R. rewrite !Nat2Z.id.
  eexists. split; [reflexivity|].
  set (z := Z.to_nat (int_mul (Z.of_nat R) (Z.of_nat W))) in *.
  assert (Hz : z ≤ R * W).
  { unfold z, int_mul. pose proof (int_wrap_le (Z.of_nat R * Z.of_nat W)) as Hle. lia. }
  rewrite (for_ext k
             (λ i, for_ n (λ j,
                FPX.set (Z.to_nat (int_add (Z.of_nat (m + k)) (Z.of_nat i))) j
                  (coeff (transpose (matrixV svd)) i j)))
             (λ i, for_ n (λ j,
                FPX.set (m + k + i) j (coeff (transpose (matrixV svd)) i j)))).
  2:{ intros i s Hi. rewrite int_add_small by (unfold INT_MAX in *; lia).
      by rewrite Nat2Z.id. }
  rewrite (for_ext k
             (λ i, for_ k (λ j,
                FPX.set (Z.to_nat (int_add (Z.of_nat m) (Z.of_nat i))) j
                  (coeff (asDiagonal (singularValues svd)) i j)))
             (λ i, for_ k (λ j,
                FPX.set (m + i) j (coeff (asDiagonal (singularValues svd)) i j)))).
  2:{ intros i s Hi. rewrite int_add_small by (unfold INT_MAX in *; lia).
      by rewrite Nat2Z.id. }
  apply (svd_full_slot (svd_full_result st) (coeff (matrixU svd))
           (coeff (asDiagonal (singularValues svd)))
           (coeff (transpose (matrixV svd))) m n k R W z); lia.
Qed.

Lemma thin_SVD_shape_svd_of_diagonal (A : MatrixXd) :
  thin_SVD_shape (Ref.svd_of_diagonal A) A.
Proof.
  unfold thin_SVD_shape, Ref.svd_of_diagonal, diagonal. simpl.
  by rewrite length_fmap, length_seq.
Qed.

(** On a column of 46342 cells the result has 46344 × 46342 cells, more
    than [INT_MAX]: the bound of the zero-fill loop wraps around to a
    negative [int], the loop body never runs, and a cell outside the three
    blocks keeps what the slot held before. *)
Lemma svd_full_unit_column (st : Statics) (m : nat) :
  Z.of_nat m = 46342%Z →
  1 < length (array (svd_full_result st)) →
  ∃ r, xll_matrix_svd_full st (nothrow Ref.svd_of_diagonal) (unit_column m) = Some r ∧
       rows r = m + 2 ∧ columns r = m ∧
       cell r 0 1 = array (svd_full_result st) !!! 1.
Proof.
  intros Hm Hslot.
  pose proof (xll_matrix_svd_full_cells st Ref.svd_of_diagonal (unit_column m)) as H.
  cbv zeta in H.
  assert (Hk : length (singularValues
                 (Ref.svd_of_diagonal (fp_to_eigen (unit_column m)))) = 1).
  { unfold Ref.svd_of_diagonal, diagonal. simpl.
    rewrite length_fmap, length_seq. lia. }
  rewrite Hk in H. change (rows (unit_column m)) with m in H.
  change (columns (unit_column m)) with 1 in H.
  replace ((m `max` 1) `max` 1) with m in H by lia.
  assert (HR : Z.of_nat (m + 1 + 1) = 46344%Z) by lia.
  rewrite HR, Hm in H.
  change (Z.to_nat (int_mul 46344 46342)) with 0 in H.
  destruct H as (r & Hr & He & Hc); [unfold INT_MAX; lia..|].
  destruct (extent_eq _ _ _ _ He) as (Hrows & Hcols & _).
  exists r. split; [exact Hr|]. split; [lia|]. split; [exact Hcols|].
  rewrite Hc by lia.
  rewrite decide_False by lia. rewrite decide_False by lia.
  rewrite decide_False by lia. rewrite decide_False by lia.
  unfold cell. rewrite FPX_resize_kept; [|simpl; lia|nia].
  done.
Qed.

(** C6, counterexample: for the first unit vector as a column of 46342
    cells, with its singular value decomposition [U = e1], [σ = (1)],
    [V = (1)], cell (0, 1) of the result lies outside the three blocks and is
    not zero: it still holds the 7 of the previous result. *)
Lemma svd_full_of_long_column :
  rows long_column = Z.to_nat 46342 ∧ columns long_column = 1 ∧
  thin_SVD_shape (Ref.svd_of_diagonal (fp_to_eigen long_column))
    (fp_to_eigen long_column) ∧
  length (singularValues (Ref.svd_of_diagonal (fp_to_eigen long_column))) = 1 ∧
  int_mul 46344 46342 = (-2147293648)%Z ∧
  ∃ r, xll_matrix_svd_full st_used (nothrow Ref.svd_of_diagonal) long_column
       = Some r ∧
       rows r = Z.to_nat 46342 + 2 ∧ columns r = Z.to_nat 46342 ∧
       cell r 0 1 = 7%float.
Proof.
  split; [reflexivity|]. split; [reflexivity|].
  split; [apply thin_SVD_shape_svd_of_diagonal|]. split.
  { destruct (thin_SVD_shape_svd_of_diagonal (fp_to_eigen long_column)) as [Hk _].
    rewrite Hk. change (Z.to_nat 46342 `min` 1 = 1). lia. }
  split; [reflexivity|].
  apply (svd_full_unit_column st_used (Z.to_nat 46342)); [lia | simpl; lia].
Qed.

(** C6, amended: for an [m × n] input whose thin SVD has [k = min(m, n)]
    singular values and whose result, of [(m + 2k) × max(m, n, k)] cells, has
    at most [INT_MAX] cells, [xll_matrix_svd_full] returns one array of that
    shape: rows [0, m) hold [U], rows [m, m + k) the diagonal matrix of the
    singular values, rows [m + k, m + 2k) the transpose of [V]; every block
    starts in column 0 and every other cell is zero, whatever the slot held
    before. *)
Theorem xll_matrix_svd_full_layout
    (st : Statics) (JacobiSVD : MatrixXd → SVD_t) (pa : _FP12) :
  let svd := JacobiSVD (fp_to_eigen pa) in
  let m := rows pa in
  let n := columns pa in
  let k := m `min` n in
  thin_SVD_shape svd (fp_to_eigen pa) →
  (Z.of_nat m ≤ INT_MAX)%Z → (Z.of_nat n ≤ INT_MAX)%Z →
  (Z.of_nat ((m + 2 * k) * ((m `max` n) `max` k)) ≤ INT_MAX)%Z →
  ∃ r, xll_matrix_svd_full st (nothrow JacobiSVD) pa = Some r ∧
       rows r = m + 2 * k ∧ columns r = (m `max` n) `max` k ∧ FP12_wf r ∧
       ∀ i j, i < m + 2 * k → j < columns r →
         cell r i j =
           if decide (i < m) then
             if decide (j < k) then coeff (matrixU svd) i j else 0%float
           else if decide (i < m + k) then
             if decide (j = i - m) then singularValues svd !!! j else 0%float
           else
             if decide (j < n) then coeff (matrixV svd) j (i - m - k) else 0%float.
Proof.
  intros svd m n k (Hk & HUr & HUc & HVr & HVc) Hm Hn Hcells.
  simpl in Hk, HUr, HUc, HVr, HVc. fold m n k in Hk, HUr, HUc, HVr, HVc.
  pose proof (xll_matrix_svd_full_cells st JacobiSVD pa) as H.
  cbv zeta in H. fold svd m n in H. rewrite Hk in H.
  set (W := (m `max` n) `max` k) in *. set (R := m + k + k) in *.
  assert (HR : (Z.of_nat R ≤ INT_MAX)%Z) by (unfold INT_MAX in *; nia).
  assert (HW : (Z.of_nat W ≤ INT_MAX)%Z) by (unfold INT_MAX in *; lia).
  assert (Hz : Z.to_nat (int_mul (Z.of_nat R) (Z.of_nat W)) = R * W).
  { unfold int_mul. rewrite int_wrap_small by (unfold INT_MIN, INT_MAX in *; nia). lia. }
  rewrite Hz in H.
  destruct (H HR HW) as (r & Hr & He & Hc).
  destruct (extent_eq _ _ _ _ He) as (Hrows & Hcols & Hlen).
  exists r. split; [exact Hr|]. split; [lia|]. split; [exact Hcols|].
  split; [unfold FP12_wf; by rewrite Hlen, Hrows, Hcols|].
  rewrite Hcols. intros i j Hi Hj. rewrite Hc by done.
  assert (i * W + j < R * W) by nia.
  destruct (decide (i < m)) as [Him|Him].
  - rewrite (decide_False (P := m ≤ i < m + k ∧ j < k)) by lia.
    rewrite (decide_False (P := m + k ≤ i < R ∧ j < n)) by lia.
    destruct (decide (j < k)).
    + by rewrite decide_True by lia.
    + rewrite decide_False by lia. by rewrite decide_True.
  - rewrite (decide_False (P := i < m ∧ j < k)) by lia.
    destruct (decide (i < m + k)) as [Himk|Himk].
    + destruct (decide (j = i - m)) as [->|Hne].
      * rewrite decide_True by lia. unfold asDiagonal.
        rewrite coeff_NullaryExpr by lia. by rewrite decide_True.
      * destruct (decide (m ≤ i < m + k ∧ j < k)).
        -- unfold asDiagonal. rewrite coeff_NullaryExpr by lia.
           rewrite decide_False by lia. done.
        -- rewrite decide_False by lia. by rewrite decide_True.
    + rewrite (decide_False (P := m ≤ i < m + k ∧ j < k)) by lia.
      destruct (decide (j < n)).
      * rewrite decide_True by lia. unfold transpose.
        rewrite coeff_NullaryExpr by lia. f_equal. lia.
      * rewrite decide_False by lia. by rewrite decide_True.
Qed.

Lemma xll_matrix_svd_full_layout_witness :
  thin_SVD_shape (Ref.svd_of_diagonal (fp_to_eigen diag_2x3)) (fp_to_eigen diag_2x3) ∧
  (Z.of_nat (rows diag_2x3) ≤ INT_MAX)%Z ∧
  (Z.of_nat (columns diag_2x3) ≤ INT_MAX)%Z ∧
  (Z.of_nat ((2 + 2 * 2) * 3) ≤ INT_MAX)%Z ∧
  ∃ r, xll_matrix_svd_full st_used (nothrow Ref.svd_of_diagonal) diag_2x3 = Some r ∧
       rows r = 2 + 2 * 2 ∧ columns r = 3 ∧ FP12_wf r ∧
       cell r 0 0 = 1%float ∧ cell r 2 0 = 3%float ∧ cell r 3 1 = 2%float ∧
       cell r 5 1 = 1%float ∧ cell r 1 2 = 0%float.
Proof.
  assert (Hshape : thin_SVD_shape (Ref.svd_of_diagonal (fp_to_eigen diag_2x3))
                     (fp_to_eigen diag_2x3)) by (repeat split).
  assert (Hm : (Z.of_nat (rows diag_2x3) ≤ INT_MAX)%Z) by (unfold INT_MAX; simpl; lia).
  assert (Hn : (Z.of_nat (columns diag_2x3) ≤ INT_MAX)%Z)
    by (unfold INT_MAX; simpl; lia).
  assert (Hc : (Z.of_nat ((2 + 2 * 2) * 3) ≤ INT_MAX)%Z) by (unfold INT_MAX; lia).
  split; [exact Hshape|]. split; [exact Hm|]. split; [exact Hn|]. split; [exact Hc|].
  destruct (xll_matrix_svd_full_layout st_used Ref.svd_of_diagonal diag_2x3
              Hshape Hm Hn Hc)
    as (r & Hr & Hrows & Hcols & Hwf & Hcell).
  exists r. split; [exact Hr|]. split; [exact Hrows|]. split; [exact Hcols|].
  split; [exact Hwf|].
  repeat split; (rewrite Hcell; [reflexivity | simpl; lia | rewrite Hcols; simpl; lia]).
Defined.

Example svd_full_2x3 :
  xll_matrix_svd_full st_used (nothrow Ref.svd_of_diagonal) diag_2x3
  = Some (fp 6 3 [1; 0; 0;  0; 1; 0;
                  3; 0; 0;  0; 2; 0;
                  1; 0; 0;  0; 1; 0]%float).
Proof. reflexivity. Qed.

(** ** Pseudoinverse *)

(** [for i < n: l[i] = g i]. *)
Lemma fill_loop (g : nat → double) (n : nat) (l : list double) :
  n ≤ length l →
  length (for_ n (λ i l, <[i := g i]> l) l) = length l ∧
  ∀ p, p < n → for_ n (λ i l, <[i := g i]> l) l !!! p = g p.
Proof.
  intros Hn. induction n as [|n IH].
  - split; [done|]. intros p Hp. lia.
  - destruct IH as [Hl IH]; [lia|]. rewrite for_S.
    set (s := for_ n _ l) in *. rewrite length_insert. split; [done|].
    intros p Hp. rewrite list_lookup_total_insert.
    case_decide as Hnp; [by destruct Hnp as [-> _]|].
    apply IH. lia.
Qed.

(** The loop of [xll_matrix_pinv] in closed form. *)
Lemma pinv_singularValuesInv_eq (tolerance : double) (sv : VectorXd) :
  pinv_singularValuesInv tolerance sv
  = (λ s, if PrimFloat.ltb tolerance s then (1 / s)%float else 0%float) <$> sv.
Proof.
  unfold pinv_singularValuesInv.
  set (g := λ i, if PrimFloat.ltb tolerance (sv !!! i)
                 then (1 / sv !!! i)%float else 0%float).
  rewrite (for_ext _ _ (λ i l, <[i := g i]> l)).
  2:{ intros i s _. unfold g. by destruct (PrimFloat.ltb _ _). }
  destruct (fill_loop g (length sv) (replicate (length sv) quiet_NaN)) as [Hl Hg];
    [by rewrite length_replicate|].
  rewrite length_replicate in Hl.
  apply list_eq_same_length with (length sv); [by rewrite length_fmap | done |].
  intros i x y Hi Hx Hy.
  rewrite <- (list_lookup_total_correct _ _ _ Hx), Hg by done.
  rewrite list_lookup_fmap in Hy.
  destruct (sv !! i) as [s|] eqn:Hs; [|done]. injection Hy as <-.
  unfold g. by rewrite (list_lookup_total_correct _ _ _ Hs).
Qed.

(** The order of binary64 is asymmetric. *)
Lemma SFcompare_antisym (x y : spec_float) :
  SFcompare y x = option_map CompOpp (SFcompare x y).
Proof.
  destruct x as [s1|s1| |s1 m1 e1], y as [s2|s2| |s2 m2 e2]; simpl;
    repeat match goal with s : bool |- _ => destruct s end; try reflexivity;
    change (PosDef.Pos.compare_cont Eq m2 m1) with (Pos.compare m2 m1);
    change (PosDef.Pos.compare_cont Eq m1 m2) with (Pos.compare m1 m2);
    rewrite (Z.compare_antisym e1 e2), (Pos.compare_antisym m1 m2);
    destruct (e1 ?= e2)%Z; simpl; try reflexivity;
    by destruct (m1 ?= m2)%positive.
Qed.

Lemma ltb_asym (x y : double) :
  PrimFloat.ltb x y = true → PrimFloat.ltb y x = false.
Proof.
  rewrite !FloatAxioms.ltb_spec. unfold SFltb.
  rewrite (SFcompare_antisym (Prim2SF x)).
  by destruct (SFcompare (Prim2SF x) (Prim2SF y)) as [[]|].
Qed.

(** The loop and the specification's wording agree on every singular value
    that is strictly below or strictly above the tolerance; they can only
    differ on one that is equal to it (or unordered). *)
Lemma pinv_singularValuesInv_off_tolerance (tolerance : double) (sv : VectorXd) :
  Forall (λ s, PrimFloat.ltb s tolerance = true ∨ PrimFloat.ltb tolerance s = true) sv →
  pinv_singularValuesInv tolerance sv = spec_singularValuesInv tolerance sv.
Proof.
  intros Hsv. rewrite pinv_singularValuesInv_eq. unfold spec_singularValuesInv.
  apply Forall_fmap_ext_1. eapply Forall_impl; [exact Hsv|].
  intros s [Hlt|Hgt]; simpl.
  - by rewrite Hlt, (ltb_asym _ _ Hlt).
  - by rewrite Hgt, (ltb_asym _ _ Hgt).
Qed.

(** C5, counterexample: the 1×1 zero matrix has the singular value 0 and
    the tolerance [epsilon * 1 * 0 = 0].  The singular value is not below the
    tolerance, so by the specification's wording it would be reciprocated,
    giving an infinite result; the code inverts it to zero. *)
Lemma pinv_value_at_tolerance :
  let A := fp_to_eigen zero_1x1 in
  let svd := Ref.svd_of_diagonal A in
  singularValues svd = [0%float] ∧
  pinv_tolerance A (singularValues svd) = 0%float ∧
  PrimFloat.ltb 0 (pinv_tolerance A (singularValues svd)) = false ∧
  spec_singularValuesInv 0 (singularValues svd) = [infinity] ∧
  eigen_to_fp st0
    (Ref.mul (mul_asDiagonal (matrixV svd) (spec_singularValuesInv 0 (singularValues svd)))
             (adjoint (matrixU svd)))
  = fp 1 1 [infinity] ∧
  pinv_singularValuesInv 0 (singularValues svd) = [0%float] ∧
  xll_matrix_pinv st0 (nothrow2 Ref.mul) (nothrow Ref.svd_of_diagonal) zero_1x1 = Some (fp 1 1 [0%float]).
Proof. repeat split. Qed.

(** C5, amended: for every input with at least one singular value
    [xll_matrix_pinv] returns [V * diag(s') * U^T] from the thin SVD, where
    [s'(i)] is the reciprocal of the singular value [s(i)] when [s(i)] is
    strictly greater than [epsilon * max(rows, cols) * max |s|] and zero
    otherwise (so also when [s(i)] equals the tolerance). *)
Theorem xll_matrix_pinv_spec
    (st : Statics) (operator_mul : MatrixXd → MatrixXd → MatrixXd)
    (JacobiSVD : MatrixXd → SVD_t) (pa : _FP12) :
  let svd := JacobiSVD (fp_to_eigen pa) in
  let sv := singularValues svd in
  let tolerance :=
    (epsilon * Index_to_double (rows pa `max` columns pa) * abs_maxCoeff sv)%float in
  let sinv :=
    (λ s, if PrimFloat.ltb tolerance s then (1 / s)%float else 0%float) <$> sv in
  sv ≠ [] →
  xll_matrix_pinv st (nothrow2 operator_mul) (nothrow JacobiSVD) pa
  = Some (eigen_to_fp st
            (operator_mul (mul_asDiagonal (matrixV svd) sinv) (adjoint (matrixU svd)))) ∧
  length sinv = length sv ∧
  (∀ i j, i < m_rows (matrixV svd) → j < length sv →
     coeff (mul_asDiagonal (matrixV svd) sinv) i j
     = (coeff (matrixV svd) i j *
        (if PrimFloat.ltb tolerance (sv !!! j) then 1 / sv !!! j else 0))%float) ∧
  (∀ i j, i < m_cols (matrixU svd) → j < m_rows (matrixU svd) →
     coeff (adjoint (matrixU svd)) i j = coeff (matrixU svd) j i).
Proof.
  intros svd sv tolerance sinv _.
  assert (Hlen : length sinv = length sv) by (unfold sinv; by rewrite length_fmap).
  split; [|split; [done|split]].
  - unfold xll_matrix_pinv. run_try. fold svd. fold sv.
    by rewrite pinv_singularValuesInv_eq.
  - intros i j Hi Hj. unfold mul_asDiagonal.
    rewrite coeff_NullaryExpr by lia. f_equal.
    unfold sinv.
    exact (list_lookup_total_fmap
             (λ s, if PrimFloat.ltb tolerance s then (1 / s)%float else 0%float)
             sv j Hj).
  - intros i j Hi Hj. unfold adjoint, transpose. by rewrite coeff_NullaryExpr.
Qed.

Lemma xll_matrix_pinv_spec_witness :
  singularValues (Ref.svd_of_diagonal (fp_to_eigen diag_2x3)) ≠ [] ∧
  xll_matrix_pinv st_used (nothrow2 Ref.mul) (nothrow Ref.svd_of_diagonal) diag_2x3
  = Some (fp 3 2 [0x1.5555555555555p-2; 0; 0; 0.5; 0; 0]%float).
Proof.
  assert (Hne : singularValues (Ref.svd_of_diagonal (fp_to_eigen diag_2x3)) ≠ [])
    by discriminate.
  split; [exact Hne|].
  destruct (xll_matrix_pinv_spec st_used Ref.mul Ref.svd_of_diagonal diag_2x3 Hne)
    as [Heq _].
  rewrite Heq. reflexivity.
Defined.

(** A singular value far below the tolerance is dropped, not reciprocated. *)
Example pinv_rank_deficient :
  xll_matrix_pinv st_used (nothrow2 Ref.mul) (nothrow Ref.svd_of_diagonal) (fp 2 2 [4; 0; 0; 0x1p-60]%float)
  = Some (fp 2 2 [0.25; 0; 0; 0]%float).
Proof. reflexivity. Qed.

(** ** Failure signalling *)

Lemma trace_fp_to_eigen pa :
  rows pa = columns pa →
  trace (fp_to_eigen pa) = sum ((λ i, cell pa i i) <$> seq 0 (rows pa)).
Proof.
  intros Hsq. unfold trace, diagonal. simpl. rewrite <- Hsq, Nat.min_id.
  f_equal. apply tabulate_congr. intros p Hp.
  by rewrite coeff_fp_to_eigen by lia.
Qed.

Lemma xll_matrix_trace_eq pa :
  xll_matrix_trace pa
  = if decide (rows pa = columns pa)
    then sum ((λ i, cell pa i i) <$> seq 0 (rows pa)) else quiet_NaN.
Proof.
  unfold xll_matrix_trace. simpl.
  destruct (decide (rows pa = columns pa)) as [Hsq|Hsq].
  - rewrite decide_False by (by intros []). by apply trace_fp_to_eigen.
  - by rewrite decide_True.
Qed.

Lemma xll_matrix_det_eq determinant pa :
  xll_matrix_det (nothrow determinant) pa
  = if decide (rows pa = columns pa)
    then determinant (fp_to_eigen pa) else quiet_NaN.
Proof.
  unfold xll_matrix_det. simpl.
  destruct (decide (rows pa = columns pa)) as [Hsq|Hsq].
  - by rewrite decide_False by (by intros []).
  - by rewrite decide_True.
Qed.

Lemma accepted_Some {A} (P : Prop) (x : A) : P → (P ↔ is_Some (Some x)).
Proof. intros HP. split; [by eexists | done]. Qed.

Lemma rejected_None {A} (P : Prop) : ¬ P → (P ↔ is_Some (@None A)).
Proof. intros HP. split; [done | by intros []%is_Some_None]. Qed.

(** Case analysis on the outcome of the kernel calls of an operation. *)
Ltac kernel_cases :=
  repeat match goal with
  | |- context [match ?e with Returned _ => _ | Thrown => _ end] =>
      lazymatch e with
      | context [match _ with Returned _ => _ | Thrown => _ end] => fail
      | context [decide _] => fail
      | _ => destruct e eqn:?
      end
  end.

(** Case analysis on the tests of an operation. *)
Ltac test_cases :=
  repeat match goal with
  | |- context [decide ?P] => destruct (decide P)
  end.

Ltac op_cases :=
  repeat first [progress test_cases | progress kernel_cases];
  repeat match goal with
  | H : ¬ (_ ≠ _) |- _ => apply dec_stable in H
  end.

(** The call is accepted: its tests passed and its kernel calls returned. *)
Ltac prove_accepted :=
  repeat split;
  first [ lia | done | by eexists
        | eexists; split; [reflexivity|]; first [done | by eexists] ].

(** The call is rejected: a test failed or a kernel call threw. *)
Ltac prove_rejected :=
  let HP := fresh in
  intros HP;
  repeat match goal with
  | H : _ ∧ _ |- _ => destruct H
  | H : ∃ _, _ |- _ => destruct H
  end;
  first [ lia | congruence ].

(** C9, counterexample: neither scalar is exact.  On the diagonal
    [1e16, 1, -1e16] the exact trace is 1 but [1e16 + 1] rounds to [1e16] and
    the operation returns 0.  The exact determinant of [[2^60 1] [1 1]] is
    [2^60 - 1], which no double equals; the reference kernel returns [2^60]. *)
Lemma trace_and_determinant_are_rounded :
  exact_trace (fp_to_eigen cancelling_3x3) = Some 1%Z ∧
  integer_value (xll_matrix_trace cancelling_3x3) = Some 0%Z ∧
  exact_determinant (fp_to_eigen odd_2x2) = Some (2 ^ 60 - 1)%Z ∧
  (∀ d : double, integer_value d ≠ Some (2 ^ 60 - 1)%Z) ∧
  xll_matrix_det (nothrow Ref.determinant) odd_2x2 = 0x1p60%float.
Proof.
  split; [reflexivity|]. split; [reflexivity|]. split; [reflexivity|].
  split; [|reflexivity].
  intros d Hd. apply integer_value_bound in Hd as (a & e & Hz & Ha & He).
  destruct (decide (e = 0%Z)) as [->|Hne].
  - rewrite Z.pow_0_r in Hz. lia.
  - replace e with (Z.succ (e - 1)) in Hz by lia.
    rewrite Z.pow_succ_r in Hz by lia. lia.
Qed.

(** C9, amended: a call that is not accepted (wrong shape, a fault inside
    the kernel, or an unsuccessful Cholesky factorisation) returns the
    sentinel of its registered return type, the null array or a quiet NaN; a
    call returns nothing but an array-or-null or a double, and an
    array-valued call returns an array exactly when it is accepted.  For a
    non-square input trace and determinant are a quiet NaN; for a square
    input the trace is the binary64 sum of the diagonal cells, added one by
    one from the first, and the determinant is the double the kernel
    computes, handed back unchanged. *)
Theorem failure_is_the_sentinel
    (st : Statics) (K : Kernel) (c : call) (determinant : MatrixXd → double) :
  (¬ accepted K c → invoke st K c = sentinel (return_type c)) ∧
  match invoke st K c with
  | FP p => return_type c = XLL_FP ∧ (accepted K c ↔ is_Some p)
  | DOUBLE _ => return_type c = XLL_DOUBLE
  end ∧
  (∀ pa, xll_matrix_trace pa
         = if decide (rows pa = columns pa)
           then match rows pa with
                | 0 => 0%float
                | S n => foldl PrimFloat.add (cell pa 0 0)
                           ((λ i, cell pa i i) <$> seq 1 n)
                end
           else quiet_NaN) ∧
  (∀ pa, xll_matrix_det (nothrow determinant) pa
         = if decide (rows pa = columns pa)
           then determinant (fp_to_eigen pa) else quiet_NaN).
Proof.
  split; [|split; [|split]].
  - intros Hrej.
    destruct c; simpl in *;
      unfold xll_matrix_add, xll_matrix_sub, xll_matrix_mul, xll_matrix_trace,
        xll_matrix_norm, xll_matrix_det, xll_matrix_rank, xll_matrix_inv,
        xll_matrix_lu, xll_matrix_qr, xll_matrix_cholesky, xll_matrix_svd,
        xll_matrix_svd_full, xll_matrix_eigenvalues, xll_matrix_eigenvectors,
        xll_matrix_solve, xll_matrix_lstsq, xll_matrix_pinv,
        xll_matrix_identity, xll_matrix_zeros, valid_dim, returns in *;
      run_try; simpl in *; try tauto;
      op_cases; simplify_eq;
      try done; exfalso; apply Hrej; prove_accepted.
  - destruct c; simpl;
      unfold xll_matrix_add, xll_matrix_sub, xll_matrix_mul,
        xll_matrix_inv, xll_matrix_lu, xll_matrix_qr, xll_matrix_cholesky,
        xll_matrix_svd, xll_matrix_svd_full, xll_matrix_transpose,
        xll_matrix_eigenvalues, xll_matrix_eigenvectors, xll_matrix_solve,
        xll_matrix_lstsq, xll_matrix_pinv, xll_matrix_identity,
        xll_matrix_zeros, xll_matrix_diag, valid_dim, returns;
      run_try; simpl; try done;
      op_cases; simplify_eq;
      (split; [done|]);
      first [ apply accepted_Some; prove_accepted
            | apply rejected_None; prove_rejected ].
  - intros pa. rewrite xll_matrix_trace_eq. case_decide; [|done].
    by destruct (rows pa).
  - apply xll_matrix_det_eq.
Qed.

(** A fault inside the kernel comes back as the sentinel. *)
Example inverse_kernel_fault st pa : xll_matrix_inv st (λ _, Thrown) pa = None.
Proof. unfold xll_matrix_inv. run_try. by case_decide. Qed.

Example norm_kernel_fault pa : xll_matrix_norm (λ _, Thrown) pa = quiet_NaN.
Proof. reflexivity. Qed.

Example trace_3x3 : xll_matrix_trace A_3x3 = 9%float.
Proof. reflexivity. Qed.

Example trace_cancelling : xll_matrix_trace cancelling_3x3 = 0%float.
Proof. reflexivity. Qed.

Example trace_2x3 : xll_matrix_trace A_2x3 = quiet_NaN.
Proof. reflexivity. Qed.

Example det_2x2 : xll_matrix_det (nothrow Ref.determinant) A_2x2 = 10%float.
Proof. reflexivity. Qed.

Example det_3x2 : xll_matrix_det (nothrow Ref.determinant) A_3x2 = quiet_NaN.
Proof. reflexivity. Qed.

Example add_2x3_3x2 : xll_matrix_add st_used A_2x3 A_3x2 = None.
Proof. reflexivity. Qed.

Example mul_2x3_2x3 : xll_matrix_mul st_used (nothrow2 Ref.mul) A_2x3 A_2x3 = None.
Proof. reflexivity. Qed.

Example mul_2x3_3x2 :
  xll_matrix_mul st_used (nothrow2 Ref.mul) A_2x3 A_3x2 = Some (fp 2 2 [22; 28; 49; 64]%float).
Proof. reflexivity. Qed.

Example transpose_2x3 :
  xll_matrix_transpose st_used A_2x3 = Some (fp 3 2 [1; 4; 2; 5; 3; 6]%float).
Proof. reflexivity. Qed.

(** * Further properties of the catalogue *)

(** ** Extensionality of the two representations *)

Lemma NullaryExpr_ext r c f g :
  (∀ i j, i < r → j < c → f i j = g i j) → NullaryExpr r c f = NullaryExpr r c g.
Proof.
  intros Hfg. apply MatrixXd_ext; [apply NullaryExpr_wf | done | done |].
  intros i j Hi Hj. rewrite coeff_NullaryExpr by done. by apply Hfg.
Qed.

(** A well-formed array is determined by its shape and its cells. *)
Lemma FP12_ext (x y : _FP12) :
  FP12_wf x → FP12_wf y → rows x = rows y → columns x = columns y →
  (∀ i j, i < rows x → j < columns x → cell x i j = cell y i j) →
  x = y.
Proof.
  destruct x as [r c a], y as [r' c' a']. unfold FP12_wf, cell. simpl.
  intros Ha Ha' <- <- Hcell. f_equal.
  apply list_eq_same_length with (r * c); [done | done |].
  intros p u v Hp Hu Hv.
  rewrite <- (list_lookup_total_correct _ _ _ Hu).
  rewrite <- (list_lookup_total_correct _ _ _ Hv).
  assert (p mod c < c ∧ p / c < r) as [Hj Hi] by (apply offset_split; lia).
  specialize (Hcell (p / c) (p mod c) Hi Hj).
  replace (p / c * c + p mod c) with p in Hcell; [done|].
  rewrite (Nat.div_mod_eq p c) at 1. lia.
Qed.

Lemma cell_fp_to_eigen pa i j :
  i < rows pa → j < columns pa → coeff (fp_to_eigen pa) i j = cell pa i j.
Proof. intros. by rewrite coeff_fp_to_eigen. Qed.

Lemma coeff_transpose (A : MatrixXd) i j :
  i < m_cols A → j < m_rows A → coeff (transpose A) i j = coeff A j i.
Proof. intros. unfold transpose. by rewrite coeff_NullaryExpr. Qed.

Lemma transpose_transpose (A : MatrixXd) : Matrix_wf A → transpose (transpose A) = A.
Proof.
  intros Hwf. symmetry. apply MatrixXd_ext; [done..|].
  intros i j Hi Hj. symmetry. exact (coeff_transpose A j i Hj Hi).
Qed.

(** ** Elementwise arithmetic *)

(** The proof shared by addition and subtraction; [f] is the operation's
    function. *)
Ltac elementwise f :=
  unfold f; run_try; simpl;
  match goal with
  | |- context [decide (rows ?pa ≠ rows ?pb ∨ columns ?pa ≠ columns ?pb)] =>
      destruct (decide (rows pa ≠ rows pb ∨ columns pa ≠ columns pb))
        as [Hbad|Hok];
      [ split; [done|]; intros Hr Hc; by destruct Hbad
      | split; [split; [done | by intros ?]|]; intros Hr Hc;
        eexists; split; [done|];
        rewrite eigen_to_fp_rows, eigen_to_fp_columns; simpl;
        split; [done|]; split; [done|]; split; [apply eigen_to_fp_wf|];
        intros i j Hi Hj; rewrite cell_eigen_to_fp by done;
        unfold cwise; rewrite coeff_NullaryExpr by done;
        by rewrite !cell_fp_to_eigen by lia ]
  end.

(** X1: [xll_matrix_add] returns the null array exactly when the two shapes
    differ; otherwise the result has the shape of the operands and each cell
    is the binary64 sum of the matching cells. *)
Theorem xll_matrix_add_elementwise (st : Statics) (pa pb : _FP12) :
  (xll_matrix_add st pa pb = None ↔ rows pa ≠ rows pb ∨ columns pa ≠ columns pb) ∧
  (rows pa = rows pb → columns pa = columns pb →
   ∃ r, xll_matrix_add st pa pb = Some r ∧
        rows r = rows pa ∧ columns r = columns pa ∧ FP12_wf r ∧
        ∀ i j, i < rows pa → j < columns pa →
          cell r i j = (cell pa i j + cell pb i j)%float).
Proof. elementwise xll_matrix_add. Qed.

(** X2: [xll_matrix_sub] returns the null array exactly when the two shapes
    differ; otherwise each cell is the binary64 difference of the matching
    cells. *)
Theorem xll_matrix_sub_elementwise (st : Statics) (pa pb : _FP12) :
  (xll_matrix_sub st pa pb = None ↔ rows pa ≠ rows pb ∨ columns pa ≠ columns pb) ∧
  (rows pa = rows pb → columns pa = columns pb →
   ∃ r, xll_matrix_sub st pa pb = Some r ∧
        rows r = rows pa ∧ columns r = columns pa ∧ FP12_wf r ∧
        ∀ i j, i < rows pa → j < columns pa →
          cell r i j = (cell pa i j - cell pb i j)%float).
Proof. elementwise xll_matrix_sub. Qed.

Example add_2x3 :
  xll_matrix_add st_used A_2x3 A_2x3 = Some (fp 2 3 [2; 4; 6; 8; 10; 12]%float).
Proof. reflexivity. Qed.

Example sub_2x3 :
  xll_matrix_sub st_used A_2x3 A_2x3 = Some (fp 2 3 [0; 0; 0; 0; 0; 0]%float).
Proof. reflexivity. Qed.

(** ** Transposition *)

(** X3: [xll_matrix_transpose] accepts every shape; the result has the
    rows and columns exchanged and cell [(i, j)] is cell [(j, i)] of the
    input. *)
Theorem xll_matrix_transpose_cells (st : Statics) (pa : _FP12) :
  ∃ r, xll_matrix_transpose st pa = Some r ∧
       rows r = columns pa ∧ columns r = rows pa ∧ FP12_wf r ∧
       ∀ i j, i < columns pa → j < rows pa → cell r i j = cell pa j i.
Proof.
  rewrite xll_matrix_transpose_eq. eexists. split; [done|].
  rewrite eigen_to_fp_rows, eigen_to_fp_columns. simpl.
  split; [done|]. split; [done|]. split; [apply eigen_to_fp_wf|].
  intros i j Hi Hj. rewrite cell_eigen_to_fp by done.
  rewrite coeff_transpose by done. by rewrite cell_fp_to_eigen.
Qed.

(** X4: transposing twice gives the original array back, for every array
    whose buffer has [rows * columns] cells and whatever the output slot held
    in between. *)
Theorem xll_matrix_transpose_involutive (st st' : Statics) (pa : _FP12) :
  FP12_wf pa →
  ∃ pt, xll_matrix_transpose st pa = Some pt ∧
        xll_matrix_transpose st' pt = Some pa.
Proof.
  intros Hwf. rewrite xll_matrix_transpose_eq. eexists. split; [done|].
  rewrite xll_matrix_transpose_eq.
  rewrite fp_to_eigen_to_fp by apply transpose_wf.
  rewrite transpose_transpose by apply fp_to_eigen_wf.
  by rewrite eigen_to_fp_to_eigen.
Qed.

Lemma xll_matrix_transpose_involutive_witness :
  FP12_wf A_2x3 ∧
  ∃ pt, xll_matrix_transpose st_used A_2x3 = Some pt ∧
        xll_matrix_transpose st0 pt = Some A_2x3.
Proof.
  split; [reflexivity|].
  apply (xll_matrix_transpose_involutive st_used st0 A_2x3). reflexivity.
Defined.

(** X5: reading an array into a matrix and writing the matrix back gives
    the same array: the adapter loses nothing in the external → internal →
    external direction either. *)
Theorem array_roundtrip (st : Statics) (fp : _FP12) :
  FP12_wf fp → eigen_to_fp st (fp_to_eigen fp) = fp.
Proof. apply eigen_to_fp_to_eigen. Qed.

Lemma array_roundtrip_witness :
  FP12_wf A_3x2 ∧ eigen_to_fp st_used (fp_to_eigen A_3x2) = A_3x2.
Proof.
  split; [reflexivity|]. apply (array_roundtrip st_used A_3x2). reflexivity.
Defined.

(** X6: the trace is unchanged by transposition: for every input, square
    or not, [xll_matrix_trace] of the transposed array is the same double
    (the same left-to-right sum, or a quiet NaN on both sides). *)
Theorem trace_of_transpose (st : Statics) (pa : _FP12) :
  ∃ pt, xll_matrix_transpose st pa = Some pt ∧
        xll_matrix_trace pt = xll_matrix_trace pa.
Proof.
  eexists. split; [apply xll_matrix_transpose_eq|].
  rewrite !xll_matrix_trace_eq, eigen_to_fp_rows, eigen_to_fp_columns. simpl.
  destruct (decide (rows pa = columns pa)) as [Hsq|Hns].
  - rewrite decide_True by done. f_equal. rewrite <- Hsq.
    apply tabulate_congr. intros p Hp.
    rewrite cell_eigen_to_fp by (simpl; lia).
    rewrite coeff_transpose by (simpl; lia).
    by rewrite cell_fp_to_eigen by lia.
  - by rewrite decide_False.
Qed.

(** X7: transposition distributes over addition: for operands of one
    shape, transposing their sum gives the very same array as adding their
    transposes. *)
Theorem transpose_of_add (st : Statics) (pa pb : _FP12) :
  rows pa = rows pb → columns pa = columns pb →
  ∃ s pta ptb,
    xll_matrix_add st pa pb = Some s ∧
    xll_matrix_transpose st pa = Some pta ∧
    xll_matrix_transpose st pb = Some ptb ∧
    xll_matrix_transpose st s = xll_matrix_add st pta ptb.
Proof.
  intros Hr Hc. rewrite !xll_matrix_transpose_eq.
  unfold xll_matrix_add. run_try. simpl.
  rewrite decide_False by (intros []; done).
  do 3 eexists. split; [done|]. split; [done|]. split; [done|].
  rewrite xll_matrix_transpose_eq. simpl.
  rewrite decide_False by (intros []; done).
  rewrite !fp_to_eigen_to_fp by apply NullaryExpr_wf.
  do 2 f_equal. unfold transpose at 1, cwise at 2. simpl.
  apply NullaryExpr_ext. intros i j Hi Hj.
  unfold cwise. rewrite coeff_NullaryExpr by done.
  simpl in Hi, Hj. by rewrite !coeff_transpose by (simpl; lia).
Qed.

Lemma transpose_of_add_witness :
  rows A_2x3 = rows A_2x3 ∧ columns A_2x3 = columns A_2x3 ∧
  ∃ s pta ptb,
    xll_matrix_add st_used A_2x3 A_2x3 = Some s ∧
    xll_matrix_transpose st_used A_2x3 = Some pta ∧
    xll_matrix_transpose st_used A_2x3 = Some ptb ∧
    xll_matrix_transpose st_used s = xll_matrix_add st_used pta ptb.
Proof.
  split; [reflexivity|]. split; [reflexivity|].
  apply (transpose_of_add st_used A_2x3 A_2x3); reflexivity.
Defined.

(** ** Vector results *)

Lemma row_vector_to_fp_eq st vec :
  row_vector_to_fp st vec = {| rows := 1; columns := length vec; array := vec |}.
Proof.
  unfold row_vector_to_fp, FPX.get.
  set (x := FPX.resize 1 (length vec) (row_vector_to_fp_result st)).
  assert (Hlen : length (array x) = length vec)
    by (unfold x; rewrite FPX_resize_length; lia).
  assert (Hcol : columns x = length vec) by done.
  assert (Hrow : rows x = 1) by done.
  destruct (write_row 0 (length vec) (λ i, vec !!! i) x) as [Hext Hcell];
    [lia | lia |].
  rewrite Hcol in Hcell. unfold extent in Hext. rewrite Hcol, Hlen, Hrow in Hext.
  set (x' := for_ (length vec) _ x) in *.
  destruct x' as [r c a]. injection Hext as -> -> Ha. f_equal.
  apply list_eq_same_length with (length vec); [done | lia |].
  intros i u v Hi Hu Hv.
  rewrite <- (list_lookup_total_correct _ _ _ Hu).
  rewrite <- (list_lookup_total_correct _ _ _ Hv).
  specialize (Hcell 0 i Hi). unfold cell in Hcell. simpl in Hcell.
  by rewrite decide_True in Hcell by lia.
Qed.

(** X8: [vector_to_fp] stores a vector as an [n × 1] array and
    [row_vector_to_fp] as a [1 × n] array; in both cases the buffer is
    exactly the vector, so nothing the slot held before survives. *)
Theorem vector_adapters (st : Statics) (vec : VectorXd) :
  vector_to_fp st vec = {| rows := length vec; columns := 1; array := vec |} ∧
  row_vector_to_fp st vec = {| rows := 1; columns := length vec; array := vec |}.
Proof. split; [apply vector_to_fp_eq | apply row_vector_to_fp_eq]. Qed.

Example vector_to_fp_shrinks :
  vector_to_fp st_used [1; 2]%float = fp 2 1 [1; 2]%float ∧
  row_vector_to_fp st_used [1; 2]%float = fp 1 2 [1; 2]%float.
Proof. split; reflexivity. Qed.


Example svd_of_diagonal_2x3 :
  xll_matrix_svd st_used (nothrow Ref.svd_of_diagonal) diag_2x3
  = Some (fp 2 1 [3; 2]%float).
Proof. reflexivity. Qed.

(** X10: [xll_matrix_eigenvalues] and [xll_matrix_eigenvectors] return the
    null array exactly when the input is not square.  For a square input the
    eigenvalues come back as one column holding their real parts and the
    eigenvectors as the array of the real parts of the solver's matrix; the
    imaginary parts have no influence on the result. *)
Theorem eigen_real_parts
    (st : Statics) (EigenSolver : MatrixXd → EigenSolver_t) (pa : _FP12) :
  let es := EigenSolver (fp_to_eigen pa) in
  xll_matrix_eigenvalues st (nothrow EigenSolver) pa
  = (if decide (rows pa = columns pa)
     then Some {| rows := length (eigenvalues es); columns := 1;
                  array := re <$> eigenvalues es |}
     else None) ∧
  xll_matrix_eigenvectors st (nothrow EigenSolver) pa
  = (if decide (rows pa = columns pa)
     then Some (eigen_to_fp st (real_mat (eigenvectors es)))
     else None) ∧
  rows (eigen_to_fp st (real_mat (eigenvectors es))) = m_rows (eigenvectors es) ∧
  columns (eigen_to_fp st (real_mat (eigenvectors es))) = m_cols (eigenvectors es) ∧
  (∀ i j, i < m_rows (eigenvectors es) → j < m_cols (eigenvectors es) →
     cell (eigen_to_fp st (real_mat (eigenvectors es))) i j
     = (re <$> m_data (eigenvectors es)) !!! (i + j * m_rows (eigenvectors es))).
Proof.
  intros es. split; [|split; [|split; [done|split; [done|]]]].
  - unfold xll_matrix_eigenvalues. run_try. simpl. fold es.
    destruct (decide (rows pa = columns pa)).
    + rewrite decide_False by (by intros []). rewrite vector_to_fp_eq.
      unfold real_vec. by rewrite length_fmap.
    + by rewrite decide_True.
  - unfold xll_matrix_eigenvectors. run_try. simpl. fold es.
    destruct (decide (rows pa = columns pa)).
    + by rewrite decide_False by (by intros []).
    + by rewrite decide_True.
  - intros i j Hi Hj. by rewrite cell_eigen_to_fp.
Qed.

(** X11: [xll_matrix_lu] returns the null array exactly when the input is
    not square; for a square input it returns the kernel's factor storage
    whole, both triangles, without the permutation. *)
Theorem xll_matrix_lu_storage
    (st : Statics) (PartialPivLU_matrixLU : MatrixXd → MatrixXd) (pa : _FP12) :
  let LU := PartialPivLU_matrixLU (fp_to_eigen pa) in
  (xll_matrix_lu st (nothrow PartialPivLU_matrixLU) pa = None
   ↔ rows pa ≠ columns pa) ∧
  (rows pa = columns pa →
   ∃ r, xll_matrix_lu st (nothrow PartialPivLU_matrixLU) pa = Some r ∧
        rows r = m_rows LU ∧ columns r = m_cols LU ∧ FP12_wf r ∧
        ∀ i j, i < m_rows LU → j < m_cols LU → cell r i j = coeff LU i j).
Proof.
  intros LU. unfold xll_matrix_lu. run_try. simpl. fold LU.
  destruct (decide (rows pa ≠ columns pa)) as [Hns|Hsq].
  - split; [done|]. by intros ?.
  - split; [split; [done | by intros ?]|]. intros _.
    eexists. split; [done|]. split; [done|]. split; [done|].
    split; [apply eigen_to_fp_wf|]. intros i j Hi Hj. by apply cell_eigen_to_fp.
Qed.

(** X12: [xll_matrix_mul] returns the null array exactly when the inner
    dimensions differ, and [xll_matrix_lstsq] exactly when the row counts
    differ (no squareness is asked of either); otherwise the kernel's result
    is returned. *)
Theorem mul_lstsq_validation
    (st : Statics) (operator_mul BDCSVD_solve : MatrixXd → MatrixXd → MatrixXd)
    (pa pb : _FP12) :
  (xll_matrix_mul st (nothrow2 operator_mul) pa pb = None
   ↔ columns pa ≠ rows pb) ∧
  (columns pa = rows pb →
   xll_matrix_mul st (nothrow2 operator_mul) pa pb
   = Some (eigen_to_fp st (operator_mul (fp_to_eigen pa) (fp_to_eigen pb)))) ∧
  (xll_matrix_lstsq st (nothrow2 BDCSVD_solve) pa pb = None
   ↔ rows pa ≠ rows pb) ∧
  (rows pa = rows pb →
   xll_matrix_lstsq st (nothrow2 BDCSVD_solve) pa pb
   = Some (eigen_to_fp st (BDCSVD_solve (fp_to_eigen pa) (fp_to_eigen pb)))).
Proof.
  unfold xll_matrix_mul, xll_matrix_lstsq. run_try. simpl.
  split; [|split; [|split]].
  - destruct (decide (columns pa ≠ rows pb)); [done|]. split; [done | by intros ?].
  - intros Heq. by rewrite decide_False by (by intros []).
  - destruct (decide (rows pa ≠ rows pb)); [done|]. split; [done | by intros ?].
  - intros Heq. by rewrite decide_False by (by intros []).
Qed.

(** ** Diagonal, twice *)

Lemma xll_matrix_diag_column st pa :
  columns pa = 1 →
  xll_matrix_diag st pa = Some (eigen_to_fp st (asDiagonal (col (fp_to_eigen pa) 0))).
Proof.
  intros Hc. unfold xll_matrix_diag. run_try. simpl. by rewrite decide_True.
Qed.

Lemma xll_matrix_diag_extract st pa :
  columns pa ≠ 1 →
  xll_matrix_diag st pa
  = Some {| rows := rows pa `min` columns pa; columns := 1;
            array := diagonal (fp_to_eigen pa) |}.
Proof.
  intros Hc. unfold xll_matrix_diag. run_try. simpl.
  rewrite decide_False by done. rewrite vector_to_fp_eq.
  unfold diagonal. by rewrite length_fmap, length_seq.
Qed.

Lemma length_col A j : length (col A j) = m_rows A.
Proof. unfold col. by rewrite length_fmap, length_seq. Qed.

Lemma coeff_asDiagonal v i j :
  i < length v → j < length v →
  coeff (asDiagonal v) i j = if decide (i = j) then v !!! i else 0%float.
Proof. intros. unfold asDiagonal. by rewrite coeff_NullaryExpr. Qed.

Lemma asDiagonal_rows v : m_rows (asDiagonal v) = length v.
Proof. done. Qed.

Lemma asDiagonal_cols v : m_cols (asDiagonal v) = length v.
Proof. done. Qed.

Lemma lookup_col A i j : i < m_rows A → col A j !!! i = coeff A i j.
Proof. intros. unfold col. by rewrite tabulate_lookup. Qed.

(** X13: [xll_matrix_diag] is its own inverse on column vectors: building
    the diagonal matrix from a column and applying the operation again gives
    the column back, the 1×1 column included (there both steps build). *)
Theorem diag_of_diag_column (st st' : Statics) (pa : _FP12) :
  FP12_wf pa → columns pa = 1 →
  ∃ d, xll_matrix_diag st pa = Some d ∧ xll_matrix_diag st' d = Some pa.
Proof.
  intros Hwf Hc. rewrite xll_matrix_diag_column by done.
  eexists. split; [done|].
  set (A := fp_to_eigen pa). set (D := asDiagonal (col A 0)).
  set (d := eigen_to_fp st D).
  assert (HDr : m_rows D = rows pa)
    by (unfold D; by rewrite asDiagonal_rows, length_col).
  assert (HDc : m_cols D = rows pa)
    by (unfold D; by rewrite asDiagonal_cols, length_col).
  assert (Hdr : rows d = rows pa) by exact HDr.
  assert (Hdc : columns d = rows pa) by exact HDc.
  assert (HD : fp_to_eigen d = D) by apply fp_to_eigen_to_fp, NullaryExpr_wf.
  assert (HDii : ∀ i, i < rows pa → coeff D i i = cell pa i 0).
  { intros i Hi. unfold D.
    rewrite coeff_asDiagonal by (rewrite length_col; exact Hi).
    rewrite decide_True by done. rewrite lookup_col by exact Hi.
    unfold A. by rewrite cell_fp_to_eigen by lia. }
  clearbody d D.
  destruct (decide (rows pa = 1)) as [H1|H1].
  - rewrite xll_matrix_diag_column by lia. rewrite HD. f_equal.
    assert (Hlen : length (col D 0) = 1) by (rewrite length_col; lia).
    apply FP12_ext; [apply eigen_to_fp_wf | done | | |].
    + rewrite eigen_to_fp_rows, asDiagonal_rows. lia.
    + rewrite eigen_to_fp_columns, asDiagonal_cols. lia.
    + rewrite eigen_to_fp_rows, eigen_to_fp_columns.
      rewrite asDiagonal_rows, asDiagonal_cols, Hlen.
      intros i j Hi Hj. assert (i = 0) as -> by lia. assert (j = 0) as -> by lia.
      rewrite cell_eigen_to_fp
        by (rewrite ?asDiagonal_rows, ?asDiagonal_cols; lia).
      rewrite coeff_asDiagonal by lia. rewrite decide_True by done.
      rewrite lookup_col by lia. apply HDii. lia.
  - rewrite xll_matrix_diag_extract by lia.
    rewrite Hdr, Hdc, HD, Nat.min_id.
    destruct pa as [r c a]. unfold FP12_wf in Hwf. simpl in *. subst c.
    do 2 f_equal. unfold diagonal. rewrite HDr, HDc, Nat.min_id.
    symmetry. apply tabulate_ext; [lia|]. intros p Hp.
    rewrite HDii by done. unfold cell. simpl. f_equal. lia.
Qed.

Lemma diag_of_diag_column_witness :
  FP12_wf column_3 ∧ columns column_3 = 1 ∧
  ∃ d, xll_matrix_diag st_used column_3 = Some d ∧
       xll_matrix_diag st0 d = Some column_3.
Proof.
  split; [reflexivity|]. split; [reflexivity|].
  apply (diag_of_diag_column st_used st0 column_3); reflexivity.
Defined.

Example diag_of_diag_1x1 :
  xll_matrix_diag st_used one_1x1 = Some one_1x1 ∧
  xll_matrix_diag st0 one_1x1 = Some one_1x1.
Proof. split; reflexivity. Qed.

(** X14: applied twice to a square matrix, [xll_matrix_diag] keeps its
    diagonal and clears everything else: the second call always builds. *)
Theorem diag_of_diag_square (st st' : Statics) (pa : _FP12) :
  rows pa = columns pa →
  ∃ d r, xll_matrix_diag st pa = Some d ∧ xll_matrix_diag st' d = Some r ∧
         rows r = rows pa ∧ columns r = rows pa ∧ FP12_wf r ∧
         ∀ i j, i < rows pa → j < rows pa →
           cell r i j = if decide (i = j) then cell pa i i else 0%float.
Proof.
  intros Hsq.
  assert (∃ d v, xll_matrix_diag st pa = Some d ∧
                 xll_matrix_diag st' d = Some (eigen_to_fp st' (asDiagonal v)) ∧
                 length v = rows pa ∧
                 ∀ i, i < rows pa → v !!! i = cell pa i i)
    as (d & v & Hd & Hr & Hlen & Hv).
  { destruct (decide (columns pa = 1)) as [H1|H1].
    - rewrite xll_matrix_diag_column by done.
      set (D := asDiagonal (col (fp_to_eigen pa) 0)).
      assert (HDr : m_rows D = 1)
        by (unfold D; rewrite asDiagonal_rows, length_col; simpl; lia).
      assert (HDc : m_cols D = 1)
        by (unfold D; rewrite asDiagonal_cols, length_col; simpl; lia).
      assert (HD00 : coeff D 0 0 = cell pa 0 0).
      { unfold D. rewrite coeff_asDiagonal by (rewrite length_col; simpl; lia).
        rewrite decide_True by done. rewrite lookup_col by (simpl; lia).
        by rewrite cell_fp_to_eigen by lia. }
      assert (HDwf : Matrix_wf D) by apply NullaryExpr_wf.
      clearbody D.
      exists (eigen_to_fp st D), (col D 0). split; [done|].
      rewrite xll_matrix_diag_column by (by rewrite eigen_to_fp_columns).
      rewrite fp_to_eigen_to_fp by done.
      split; [done|]. rewrite length_col. split; [lia|].
      intros i Hi. assert (i = 0) as -> by lia.
      rewrite lookup_col by lia. exact HD00.
    - rewrite xll_matrix_diag_extract by done.
      rewrite <- Hsq, Nat.min_id.
      set (d := {| rows := rows pa; columns := 1;
                   array := diagonal (fp_to_eigen pa) |}).
      exists d, (col (fp_to_eigen d) 0). split; [done|].
      rewrite xll_matrix_diag_column by done. split; [done|].
      rewrite length_col. split; [done|]. intros i Hi.
      rewrite lookup_col by exact Hi. rewrite cell_fp_to_eigen by (simpl; lia).
      unfold cell, d. simpl. replace (i * 1 + 0) with i by lia.
      unfold diagonal. simpl.
      rewrite tabulate_lookup by lia. rewrite cell_fp_to_eigen by lia.
      unfold cell. by rewrite <- Hsq. }
  exists d, (eigen_to_fp st' (asDiagonal v)).
  split; [done|]. split; [done|].
  rewrite eigen_to_fp_rows, eigen_to_fp_columns, asDiagonal_rows, asDiagonal_cols.
  split; [done|]. split; [done|]. split; [apply eigen_to_fp_wf|].
  intros i j Hi Hj.
  rewrite cell_eigen_to_fp by (rewrite ?asDiagonal_rows, ?asDiagonal_cols; lia).
  rewrite coeff_asDiagonal by lia. case_decide; [|done]. by apply Hv.
Qed.

Lemma diag_of_diag_square_witness :
  rows A_3x3 = columns A_3x3 ∧
  ∃ d r, xll_matrix_diag st_used A_3x3 = Some d ∧
         xll_matrix_diag st0 d = Some r ∧
         rows r = rows A_3x3 ∧ columns r = rows A_3x3 ∧ FP12_wf r ∧
         ∀ i j, i < rows A_3x3 → j < rows A_3x3 →
           cell r i j = if decide (i = j) then cell A_3x3 i i else 0%float.
Proof.
  split; [reflexivity|].
  apply (diag_of_diag_square st_used st0 A_3x3); reflexivity.
Defined.

Example diag_of_diag_3x3 :
  (xll_matrix_diag st_used A_3x3 ≫= xll_matrix_diag st0)
  = Some (fp 3 3 [2; 0; 0; 0; 3; 0; 0; 0; 4]%float).
Proof. reflexivity. Qed.

(** ** The output slot of the full SVD *)

(** X16: as long as the result of [xll_matrix_svd_full] has at most
    [INT_MAX] cells, it does not depend on what the static output slot holds
    from earlier calls, whatever shapes the kernel's factors have: the
    zero-fill loop reaches every cell before the three blocks are written. *)
Theorem svd_full_no_stale_data
    (st st' : Statics) (JacobiSVD : MatrixXd → SVD_t) (pa : _FP12) :
  let k := length (singularValues (JacobiSVD (fp_to_eigen pa))) in
  let W := (rows pa `max` columns pa) `max` k in
  (Z.of_nat W ≤ INT_MAX)%Z →
  (Z.of_nat ((rows pa + k + k) * W) ≤ INT_MAX)%Z →
  xll_matrix_svd_full st (nothrow JacobiSVD) pa
  = xll_matrix_svd_full st' (nothrow JacobiSVD) pa.
Proof.
  intros k W HW Hcells.
  pose proof (xll_matrix_svd_full_cells st JacobiSVD pa) as H.
  pose proof (xll_matrix_svd_full_cells st' JacobiSVD pa) as H'.
  cbv zeta in H, H'. fold k W in H, H'.
  set (R := rows pa + k + k) in *.
  assert (HR : (Z.of_nat R ≤ INT_MAX)%Z) by (unfold INT_MAX in *; nia).
  assert (Hz : Z.to_nat (int_mul (Z.of_nat R) (Z.of_nat W)) = R * W).
  { unfold int_mul. rewrite int_wrap_small by (unfold INT_MIN, INT_MAX in *; nia). lia. }
  rewrite Hz in H, H'.
  destruct (H HR HW) as (r & -> & He & Hc).
  destruct (H' HR HW) as (r' & -> & He' & Hc').
  destruct (extent_eq _ _ _ _ He) as (Hrows & Hcols & Hlen).
  destruct (extent_eq _ _ _ _ He') as (Hrows' & Hcols' & Hlen').
  f_equal. apply FP12_ext.
  - unfold FP12_wf. by rewrite Hlen, Hrows, Hcols.
  - unfold FP12_wf. by rewrite Hlen', Hrows', Hcols'.
  - by rewrite Hrows, Hrows'.
  - by rewrite Hcols, Hcols'.
  - intros i j Hi Hj. rewrite Hrows in Hi. rewrite Hcols in Hj.
    rewrite Hc, Hc' by done.
    assert (i * W + j < R * W) by nia.
    by rewrite !(decide_True (P := i * W + j < R * W)) by done.
Qed.

Lemma svd_full_no_stale_data_witness :
  (Z.of_nat 3 ≤ INT_MAX)%Z ∧ (Z.of_nat ((2 + 2 + 2) * 3) ≤ INT_MAX)%Z ∧
  xll_matrix_svd_full st_used (nothrow Ref.svd_of_diagonal) diag_2x3
  = xll_matrix_svd_full st0 (nothrow Ref.svd_of_diagonal) diag_2x3.
Proof.
  assert (HW : (Z.of_nat 3 ≤ INT_MAX)%Z) by (unfold INT_MAX; lia).
  assert (Hc : (Z.of_nat ((2 + 2 + 2) * 3) ≤ INT_MAX)%Z) by (unfold INT_MAX; lia).
  split; [exact HW|]. split; [exact Hc|].
  exact (svd_full_no_stale_data st_used st0 Ref.svd_of_diagonal diag_2x3 HW Hc).
Defined.

(** ** Generators composed with the other operations *)

Lemma transpose_Identity d : transpose (Identity d d) = Identity d d.
Proof.
  unfold transpose, Identity. simpl. apply NullaryExpr_ext. intros i j Hi Hj.
  rewrite coeff_NullaryExpr by done. repeat case_decide; first [done | lia].
Qed.

Lemma transpose_Zero r c : transpose (Zero r c) = Zero c r.
Proof.
  unfold transpose, Zero. simpl. apply NullaryExpr_ext. intros i j Hi Hj.
  by rewrite coeff_NullaryExpr.
Qed.

(** X17: the identity matrix of any accepted size is symmetric:
    [xll_matrix_transpose] gives it back unchanged. *)
Theorem identity_is_symmetric (st st' : Statics) (n : double) :
  valid_dim (static_cast_int n) →
  ∃ r, xll_matrix_identity st n = Some r ∧ xll_matrix_transpose st' r = Some r.
Proof.
  unfold valid_dim. intros Hn. unfold xll_matrix_identity. run_try.
  rewrite decide_False by lia. eexists. split; [done|].
  rewrite xll_matrix_transpose_eq, fp_to_eigen_to_fp by apply NullaryExpr_wf.
  by rewrite transpose_Identity.
Qed.

Lemma identity_is_symmetric_witness :
  valid_dim (static_cast_int 3.5) ∧
  ∃ r, xll_matrix_identity st_used 3.5 = Some r ∧
       xll_matrix_transpose st0 r = Some r.
Proof.
  assert (H : valid_dim (static_cast_int 3.5)) by (vm_compute; split; [reflexivity | discriminate]).
  split; [exact H|]. exact (identity_is_symmetric st_used st0 3.5 H).
Defined.

(** X18: transposing the [m × n] zero matrix gives what the generator
    returns for [n × m]. *)
Theorem transpose_of_zeros (st st' st'' : Statics) (m n : double) :
  valid_dim (static_cast_int m) → valid_dim (static_cast_int n) →
  ∃ z, xll_matrix_zeros st m n = Some z ∧
       xll_matrix_transpose st' z = xll_matrix_zeros st'' n m.
Proof.
  unfold valid_dim. intros Hm Hn. unfold xll_matrix_zeros. run_try.
  rewrite !decide_False by lia. eexists. split; [done|].
  rewrite xll_matrix_transpose_eq, fp_to_eigen_to_fp by apply NullaryExpr_wf.
  by rewrite transpose_Zero.
Qed.

Lemma transpose_of_zeros_witness :
  valid_dim (static_cast_int 2) ∧ valid_dim (static_cast_int 3) ∧
  ∃ z, xll_matrix_zeros st_used 2 3 = Some z ∧
       xll_matrix_transpose st0 z = xll_matrix_zeros st_used 3 2.
Proof.
  assert (H2 : valid_dim (static_cast_int 2)) by (vm_compute; split; [reflexivity | discriminate]).
  assert (H3 : valid_dim (static_cast_int 3)) by (vm_compute; split; [reflexivity | discriminate]).
  split; [exact H2|]. split; [exact H3|].
  exact (transpose_of_zeros st_used st0 st_used 2 3 H2 H3).
Defined.

Lemma counts_exactly_spec fuel z :
  counts_exactly fuel z = true →
  ∀ k : nat, (z ≤ Z.of_nat k < z + Z.of_nat fuel)%Z →
    (Index_to_double k + 1)%float = Index_to_double (S k).
Proof.
  revert z. induction fuel as [|fuel IH]; intros z Hc k Hk; [lia|].
  simpl in Hc. apply andb_prop in Hc as [Hhere Hnext].
  destruct (decide (Z.of_nat k = z)) as [<-|Hne].
  - apply FloatAxioms.Leibniz.eqb_spec in Hhere. unfold Index_to_double.
    rewrite Hhere. do 2 f_equal. lia.
  - apply (IH (z + 1)%Z Hnext). lia.
Qed.

Lemma Index_to_double_S k :
  (Z.of_nat k < 10000)%Z → (Index_to_double k + 1)%float = Index_to_double (S k).
Proof.
  intros Hk. apply (counts_exactly_spec (Z.to_nat 10000) 0); [by vm_compute | lia].
Qed.

(** Adding [d] ones to [double(k)], left to right. *)
Lemma count_ones k d s :
  (Z.of_nat (k + d) ≤ 10000)%Z →
  foldl PrimFloat.add (Index_to_double k) ((λ _, 1%float) <$> seq s d)
  = Index_to_double (k + d).
Proof.
  revert k s. induction d as [|d IH]; intros k s Hk; simpl.
  - by rewrite Nat.add_0_r.
  - rewrite Index_to_double_S by lia. rewrite IH by lia. f_equal. lia.
Qed.

(** X19: the trace of the [n × n] identity matrix is exactly [n], for every
    size the generator accepts: the diagonal is summed left to right and no
    partial sum up to 10000 is rounded. *)
Theorem trace_of_identity (st : Statics) (n : double) :
  valid_dim (static_cast_int n) →
  ∃ r, xll_matrix_identity st n = Some r ∧
       xll_matrix_trace r = Index_to_double (Z.to_nat (static_cast_int n)).
Proof.
  unfold valid_dim. intros Hn. unfold xll_matrix_identity. run_try.
  rewrite decide_False by lia. eexists. split; [done|].
  set (d := Z.to_nat (static_cast_int n)).
  assert (Hd : (1 ≤ Z.of_nat d ≤ 10000)%Z) by lia. clearbody d.
  rewrite xll_matrix_trace_eq, eigen_to_fp_rows, eigen_to_fp_columns. simpl.
  rewrite decide_True by done.
  rewrite (tabulate_congr _ (λ _, 1%float)).
  2:{ intros p Hp. rewrite cell_eigen_to_fp by done. unfold Identity.
      rewrite coeff_NullaryExpr by done. by rewrite decide_True. }
  destruct d as [|d]; [lia|]. unfold sum, redux. simpl.
  change 1%float with (Index_to_double 1) at 1. rewrite drop_0.
  exact (count_ones 1 d 1 ltac:(lia)).
Qed.

Lemma trace_of_identity_witness :
  valid_dim (static_cast_int 3.5) ∧
  ∃ r, xll_matrix_identity st_used 3.5 = Some r ∧
       xll_matrix_trace r = Index_to_double (Z.to_nat (static_cast_int 3.5)).
Proof.
  assert (H : valid_dim (static_cast_int 3.5))
    by (vm_compute; split; [reflexivity | discriminate]).
  split; [exact H|]. exact (trace_of_identity st_used 3.5 H).
Defined.

Example trace_of_identity_3 :
  xll_matrix_identity st_used 3.5 ≫= (λ r, Some (xll_matrix_trace r)) = Some 3%float.
Proof. reflexivity. Qed.

(** X20: the trace of a square matrix is the left-to-right sum of what
    [xll_matrix_diag] extracts from it, the 1×1 case (where the operation
    builds instead of extracting) included. *)
Theorem trace_is_sum_of_diag (st : Statics) (pa : _FP12) :
  rows pa = columns pa →
  ∃ d, xll_matrix_diag st pa = Some d ∧ xll_matrix_trace pa = sum (array d).
Proof.
  intros Hsq. destruct (decide (columns pa = 1)) as [H1|H1].
  - destruct pa as [r c a]. simpl in *. subst.
    eexists. split; [reflexivity|]. reflexivity.
  - rewrite xll_matrix_diag_extract by done. eexists. split; [done|].
    unfold xll_matrix_trace. run_try. simpl.
    rewrite decide_False by (by intros []). done.
Qed.

Lemma trace_is_sum_of_diag_witness :
  rows A_3x3 = columns A_3x3 ∧
  ∃ d, xll_matrix_diag st_used A_3x3 = Some d ∧
       xll_matrix_trace A_3x3 = sum (array d).
Proof.
  split; [reflexivity|]. exact (trace_is_sum_of_diag st_used A_3x3 eq_refl).
Defined.
